(** * Ultimate tic-tac-toe: the rules engine of [src/lib/game.ts]

    A shallow embedding of the game state machine (legal boards, cell moves,
    the micro and galaxy RPSLS tiebreaks), of the move selector and of the
    state (de)serialisation, followed by the properties the specification
    states about them. *)

From Stdlib Require Import List Bool Arith ZArith QArith String Ascii
  DecimalString Sorted Lia Lqa.
From Stdlib Require PrimFloat SpecFloat FloatOps Uint63.
Import ListNotations.
Open Scope string_scope.
Open Scope list_scope.
Open Scope nat_scope.

Set Implicit Arguments.

(** ** Calls that may throw

    Property access on [undefined] raises a [TypeError] in the source, and
    the use of a name that no declaration binds raises a [ReferenceError];
    a call either returns a value or throws. *)

Inductive js (A : Type) : Type :=
| Returns (a : A)
| Throws (e : string).

Arguments Returns {A} a.
Arguments Throws {A} e.

Definition bind {A B : Type} (m : js A) (k : A -> js B) : js B :=
  match m with
  | Returns a => k a
  | Throws e => Throws e
  end.

Notation "x <- m ;; k" := (bind m (fun x => k))
  (at level 61, m at next level, right associativity).

Definition returns {A : Type} (m : js A) : Prop := exists a, m = Returns a.

(** [for (const x of xs) { ... }] over a loop state: a throw ends the loop. *)
Definition for_of {A B : Type} (xs : list A) (init : B)
  (body : B -> A -> js B) : js B :=
  fold_left (fun acc x => b <- acc ;; body b x) xs (Returns init).

(** ** Data model (game.ts, lines 1-34) *)

Inductive Player : Type := X | O.
Definition Cell : Type := option Player.
Inductive BotLevel : Type := none | easy | smart | hard.
Inductive RpsChoice : Type := rock | paper | scissors | lizard | spock.

(** [Record<Player, A>]: one entry per player. *)
Record PlayerMap (A : Type) : Type := mkPlayerMap { atX : A; atO : A }.

Definition get {A : Type} (m : PlayerMap A) (p : Player) : A :=
  match p with X => atX m | O => atO m end.

Definition set {A : Type} (m : PlayerMap A) (p : Player) (a : A) : PlayerMap A :=
  match p with
  | X => mkPlayerMap a (atO m)
  | O => mkPlayerMap (atX m) a
  end.

(** [Partial<Record<Player, RpsChoice>>]; [{}] is [noPicks]. *)
Definition Picks : Type := PlayerMap (option RpsChoice).
Definition noPicks : Picks := mkPlayerMap None None.

(** [Player | "tie"] *)
Inductive Outcome : Type := won (p : Player) | tie.

Record RpsState : Type := mkRpsState {
  picks : Picks;
  lastOutcome : option Outcome
}.

Record FinalRpsState : Type := mkFinalRpsState {
  finalPicks : Picks;
  finalLastOutcome : option Outcome;
  score : PlayerMap Z;
  rounds : Z
}.

(** [Player | "CAT"] *)
Inductive BoardWinner : Type := by_ (p : Player) | CAT.

Record MicroBoardState : Type := mkBoard {
  cells : list Cell;
  winner : option BoardWinner;
  rps : option RpsState
}.

Record GameState : Type := mkGame {
  boards : list MicroBoardState;
  macroWinner : option Player;
  currentPlayer : Player;
  nextBoard : option nat;
  pendingRpsBoard : option nat;
  pendingFinalRps : bool;
  finalRps : option FinalRpsState;
  names : PlayerMap string;
  bots : PlayerMap BotLevel
}.

Definition other (p : Player) : Player :=
  match p with X => O | O => X end.

Definition Player_eqb (p q : Player) : bool :=
  match p, q with
  | X, X | O, O => true
  | _, _ => false
  end.

Definition RpsChoice_eqb (a b : RpsChoice) : bool :=
  match a, b with
  | rock, rock | paper, paper | scissors, scissors
  | lizard, lizard | spock, spock => true
  | _, _ => false
  end.

Definition isNull {A : Type} (o : option A) : bool :=
  match o with None => true | Some _ => false end.

Definition notNull {A : Type} (o : option A) : bool := negb (isNull o).

(** ** Boards and lines (lines 36-93) *)

Definition WIN_LINES : list (nat * nat * nat) :=
  [ (0, 1, 2); (3, 4, 5); (6, 7, 8);
    (0, 3, 6); (1, 4, 7); (2, 5, 8);
    (0, 4, 8); (2, 4, 6) ].

Definition defaultNames : PlayerMap string :=
  mkPlayerMap "Player X" "Player O".

Definition createEmptyBoard : MicroBoardState :=
  mkBoard (repeat None 9) None None.

Definition createInitialState : GameState :=
  mkGame (repeat createEmptyBoard 9) None X None None false None
         defaultNames (mkPlayerMap none none).

Definition boardIsFull (cells : list Cell) : bool :=
  forallb notNull cells.

(** [cells[i]]: an index outside the array reads [undefined], which is falsy
    and strictly equal to no player, like an empty cell in [detectWinner]. *)
Definition at_ (cells : list Cell) (i : nat) : Cell :=
  match nth_error cells i with
  | Some c => c
  | None => None
  end.

Definition holds (c : Cell) (p : Player) : bool :=
  match c with
  | Some q => Player_eqb p q
  | None => false
  end.

Fixpoint detectWinner_from (lines : list (nat * nat * nat)) (cells : list Cell)
  : option Player :=
  match lines with
  | [] => None
  | (a, b, c) :: rest =>
      match at_ cells a with
      | Some p =>
          if holds (at_ cells b) p && holds (at_ cells c) p
          then Some p
          else detectWinner_from rest cells
      | None => detectWinner_from rest cells
      end
  end.

Definition detectWinner (cells : list Cell) : option Player :=
  detectWinner_from WIN_LINES cells.

Definition macroCell (b : MicroBoardState) : Cell :=
  match winner b with
  | Some CAT => None
  | Some (by_ p) => Some p
  | None => None
  end.

Definition determineMacroWinner (boards : list MicroBoardState) : option Player :=
  detectWinner (map macroCell boards).

(** ** Legal boards (lines 95-112) *)

(** [xs.map((x, idx) => ...)]: the elements with their indices. *)
Definition indexed {A : Type} (xs : list A) : list (A * nat) :=
  combine xs (seq 0 (List.length xs)).

Definition openBoards (boards : list MicroBoardState) : list nat :=
  map snd (filter (fun bi => isNull (winner (fst bi))) (indexed boards)).

Definition getAllowedBoards (state : GameState) : js (list nat) :=
  if notNull (pendingRpsBoard state) || pendingFinalRps state then Returns []
  else
    match nextBoard state with
    | None => Returns (openBoards (boards state))
    | Some nb =>
        match nth_error (boards state) nb with
        | None => Throws "TypeError: target is undefined"
        | Some target =>
            if isNull (winner target) then Returns [nb]
            else Returns (openBoards (boards state))
        end
    end.

(** ** Cell moves (lines 114-196) *)

Record PlayResult : Type := mkPlayResult {
  play_state : GameState;
  play_error : option string
}.

Definition includes (xs : list nat) (i : nat) : bool := existsb (Nat.eqb i) xs.

(** [cells[i] = v] on a copy, for an index inside the array. *)
Fixpoint assign {A : Type} (xs : list A) (i : nat) (v : A) : list A :=
  match xs, i with
  | [], _ => []
  | _ :: rest, 0 => v :: rest
  | x :: rest, S j => x :: assign rest j v
  end.

(** [boards.map((b, idx) => idx === i ? updated : b)] *)
Definition replaceBoard (boards : list MicroBoardState) (i : nat)
  (updated : MicroBoardState) : list MicroBoardState :=
  map (fun bi => if Nat.eqb (snd bi) i then updated else fst bi) (indexed boards).

Definition freshFinalRps : FinalRpsState :=
  mkFinalRpsState noPicks None (mkPlayerMap 0%Z 0%Z) 0%Z.

Definition allClosed (boards : list MicroBoardState) : bool :=
  forallb (fun b => notNull (winner b)) boards.

(** Lines 136-195: the move once the four checks have passed; [board] is
    [state.boards[boardIndex]].

    The function uses the name [pendingFinalRps] (lines 170, 184 and 186)
    and never declares it: lines 142-144 declare [pendingRpsBoard],
    [nextBoard] and [macroWinner] only, and the module has no binding of
    that name.  Module code is strict, so the assignment of line 170 throws
    a [ReferenceError] when the arming condition of line 169 holds, and
    otherwise the read of line 184 throws it while the result is built.
    What the lines before have computed is lost with the call:
    [updatedBoard] and [updatedBoards] are copies, and [state] is never
    written. *)
Definition ReferenceError : string :=
  "ReferenceError: pendingFinalRps is not defined".

(** [updatedBoard] after lines 136-154. *)
Definition playMove_updatedBoard (state : GameState) (cellIndex : nat)
  (board : MicroBoardState) : MicroBoardState :=
  let updatedCells := assign (cells board) cellIndex
                             (Some (currentPlayer state)) in
  match detectWinner updatedCells with
  | Some w => mkBoard updatedCells (Some (by_ w)) (rps board)
  | None =>
      if boardIsFull updatedCells
      then mkBoard updatedCells (Some CAT) (Some (mkRpsState noPicks None))
      else mkBoard updatedCells (winner board) (rps board)
  end.

(** The local [pendingRpsBoard] after lines 142-154. *)
Definition playMove_pendingRpsBoard (state : GameState)
  (boardIndex cellIndex : nat) (board : MicroBoardState) : option nat :=
  let updatedCells := assign (cells board) cellIndex
                             (Some (currentPlayer state)) in
  match detectWinner updatedCells with
  | Some _ => pendingRpsBoard state
  | None =>
      if boardIsFull updatedCells then Some boardIndex
      else pendingRpsBoard state
  end.

Definition playMove_commit (state : GameState) (boardIndex cellIndex : nat)
  (board : MicroBoardState) : js PlayResult :=
  let updatedBoard := playMove_updatedBoard state cellIndex board in
  let pendingRpsBoard' :=
    playMove_pendingRpsBoard state boardIndex cellIndex board in
  let updatedBoards := replaceBoard (boards state) boardIndex updatedBoard in
  let macroWinner' := determineMacroWinner updatedBoards in
  let nextBoard' :=
    match nth_error updatedBoards cellIndex with
    | Some target => if notNull (winner target) then None else Some cellIndex
    | None => Some cellIndex
    end in
  let allBoardsClosed := allClosed updatedBoards in
  if isNull macroWinner' && allBoardsClosed && isNull pendingRpsBoard'
  then Throws ReferenceError (* line 170: [pendingFinalRps = true] *)
  else Throws ReferenceError (* line 184: [pendingFinalRps] is read *).

Definition playMove (state : GameState) (boardIndex cellIndex : nat)
  : js PlayResult :=
  if notNull (pendingRpsBoard state) then
    Returns (mkPlayResult state (Some "Finish Rock-Paper-Scissors first."))
  else
    allowed <- getAllowedBoards state ;;
    if negb (includes allowed boardIndex) then
      Returns (mkPlayResult state (Some "You cannot play in that board right now."))
    else
      match nth_error (boards state) boardIndex with
      | None => Throws "TypeError: board is undefined"
      | Some board =>
          if notNull (winner board) then
            Returns (mkPlayResult state (Some "That board is already decided."))
          else
            match nth_error (cells board) cellIndex with
            | Some None => playMove_commit state boardIndex cellIndex board
            | _ =>
                Returns (mkPlayResult state (Some "That square is already taken."))
            end
      end.

(** ** RPSLS (lines 198-224) *)

Definition RPS_RULES (a : RpsChoice) : list RpsChoice :=
  match a with
  | rock => [scissors; lizard]
  | paper => [rock; spock]
  | scissors => [paper; lizard]
  | lizard => [spock; paper]
  | spock => [scissors; rock]
  end.

Inductive Comparison : Type := a_wins | b_wins | is_tie.

Definition compareRps (a b : RpsChoice) : Comparison :=
  if RpsChoice_eqb a b then is_tie
  else if existsb (RpsChoice_eqb b) (RPS_RULES a) then a_wins
  else b_wins.

Definition RPS_VERBS (a b : RpsChoice) : option string :=
  match a, b with
  | rock, scissors => Some "crushes"
  | rock, lizard => Some "crushes"
  | paper, rock => Some "covers"
  | paper, spock => Some "disproves"
  | scissors, paper => Some "cuts"
  | scissors, lizard => Some "decapitates"
  | lizard, spock => Some "poisons"
  | lizard, paper => Some "eats"
  | spock, scissors => Some "smashes"
  | spock, rock => Some "vaporizes"
  | _, _ => None
  end.

Definition rpsVerb (a b : RpsChoice) : string :=
  match RPS_VERBS a b with
  | Some v => v
  | None => "beats"
  end.

(** ** Micro tiebreak (lines 226-371) *)

Record ResolvedRps : Type := mkResolvedRps {
  resolved_boardIndex : nat;
  resolved_winner : Player;
  resolved_picks : PlayerMap RpsChoice;
  resolved_verb : string
}.

Record RpsResult : Type := mkRpsResult {
  rps_state : GameState;
  rps_error : option string;
  resolvedRps : option ResolvedRps
}.

(** [state.finalRps ?? { picks: {}, lastOutcome: undefined, score: ..., rounds: 0 }] *)
Definition finalRpsOrFresh (state : GameState) : option FinalRpsState :=
  match finalRps state with
  | Some f => Some f
  | None => Some freshFinalRps
  end.

Definition submitRpsChoice (state : GameState) (player : Player)
  (choice : RpsChoice) : js RpsResult :=
  match pendingRpsBoard state with
  | None => Returns (mkRpsResult state (Some "No RPS pending.") None)
  | Some boardIndex =>
      match nth_error (boards state) boardIndex with
      | None => Throws "TypeError: board is undefined"
      | Some board =>
          let existing := match rps board with
                          | Some r => r
                          | None => mkRpsState noPicks None
                          end in
          let picks' := set (picks existing) player (Some choice) in
          let nextTurn := currentPlayer state in
          let updatedBoard :=
            mkBoard (cells board) (winner board)
                    (Some (mkRpsState picks' (lastOutcome existing))) in
          match atX picks', atO picks' with
          | Some pX, Some pO =>
              match compareRps pX pO with
              | is_tie =>
                  let updatedBoard :=
                    mkBoard (cells updatedBoard) (winner updatedBoard)
                            (Some (mkRpsState noPicks (Some tie))) in
                  let currentPlayer' := match player with X => O | O => X end in
                  let updatedBoards :=
                    replaceBoard (boards state) boardIndex updatedBoard in
                  if isNull (macroWinner state)
                     && isNull (pendingRpsBoard state)
                     && allClosed updatedBoards
                  then
                    Returns (mkRpsResult
                      (mkGame updatedBoards (macroWinner state) currentPlayer'
                              (nextBoard state) (pendingRpsBoard state) true
                              (finalRpsOrFresh state) (names state) (bots state))
                      None None)
                  else
                    Returns (mkRpsResult
                      (mkGame updatedBoards (macroWinner state) currentPlayer'
                              (nextBoard state) (pendingRpsBoard state)
                              (pendingFinalRps state) (finalRps state)
                              (names state) (bots state))
                      None None)
              | outcome =>
                  let winningPlayer :=
                    match outcome with a_wins => X | _ => O end in
                  let updatedBoard :=
                    mkBoard (cells updatedBoard) (Some (by_ winningPlayer))
                            (Some (mkRpsState picks' (Some (won winningPlayer)))) in
                  let picksFull := mkPlayerMap pX pO in
                  let resolved :=
                    mkResolvedRps boardIndex winningPlayer picksFull
                      (match outcome with
                       | a_wins => rpsVerb (atX picksFull) (atO picksFull)
                       | _ => rpsVerb (atO picksFull) (atX picksFull)
                       end) in
                  let updatedBoards :=
                    replaceBoard (boards state) boardIndex updatedBoard in
                  let macroWinner' := determineMacroWinner updatedBoards in
                  if isNull macroWinner' && allClosed updatedBoards
                  then
                    Returns (mkRpsResult
                      (mkGame updatedBoards macroWinner' nextTurn
                              (nextBoard state) None true
                              (finalRpsOrFresh state) (names state) (bots state))
                      None (Some resolved))
                  else
                    Returns (mkRpsResult
                      (mkGame updatedBoards macroWinner' nextTurn
                              (nextBoard state) None
                              (pendingFinalRps state) (finalRps state)
                              (names state) (bots state))
                      None (Some resolved))
              end
          | _, _ =>
              let currentPlayer' := match player with X => O | O => X end in
              let updatedBoards :=
                replaceBoard (boards state) boardIndex updatedBoard in
              if isNull (macroWinner state)
                 && isNull (pendingRpsBoard state)
                 && allClosed updatedBoards
              then
                Returns (mkRpsResult
                  (mkGame updatedBoards (macroWinner state) currentPlayer'
                          (nextBoard state) (pendingRpsBoard state) true
                          (finalRpsOrFresh state) (names state) (bots state))
                  None None)
              else
                Returns (mkRpsResult
                  (mkGame updatedBoards (macroWinner state) currentPlayer'
                          (nextBoard state) (pendingRpsBoard state)
                          (pendingFinalRps state) (finalRps state)
                          (names state) (bots state))
                  None None)
          end
      end
  end.

(** ** Legal moves (lines 373-387) *)

Record Move : Type := mkMove { board : nat; cell : nat }.

Definition emptyCells (cells : list Cell) : list nat :=
  map snd (filter (fun ci => isNull (fst ci)) (indexed cells)).

Fixpoint movesIn (boards : list MicroBoardState) (allowedBoards : list nat)
  : js (list Move) :=
  match allowedBoards with
  | [] => Returns []
  | boardIndex :: rest =>
      match nth_error boards boardIndex with
      | None => Throws "TypeError: board is undefined"
      | Some b =>
          moves <- movesIn boards rest ;;
          Returns (map (mkMove boardIndex) (emptyCells (cells b)) ++ moves)
      end
  end.

Definition availableMoves (state : GameState) : js (list Move) :=
  allowedBoards <- getAllowedBoards state ;;
  movesIn (boards state) allowedBoards.

(** ** Galaxy tiebreak (lines 459-513) *)

Record FinalResult : Type := mkFinalResult {
  final_state : GameState;
  final_error : option string;
  finalWinner : option Player
}.

Definition submitFinalRpsChoice (state : GameState) (player : Player)
  (choice : RpsChoice) : FinalResult :=
  match pendingFinalRps state, finalRps state with
  | true, Some current =>
      let picks' := set (finalPicks current) player (Some choice) in
      let finalRps0 :=
        mkFinalRpsState picks' (finalLastOutcome current)
                        (score current) (rounds current) in
      let currentPlayer' := match player with X => O | O => X end in
      match atX picks', atO picks' with
      | Some pX, Some pO =>
          match compareRps pX pO with
          | is_tie =>
              let finalRps1 :=
                mkFinalRpsState noPicks (Some tie)
                                (score finalRps0) (rounds finalRps0) in
              mkFinalResult
                (mkGame (boards state) (macroWinner state) currentPlayer'
                        (nextBoard state) (pendingRpsBoard state)
                        (pendingFinalRps state) (Some finalRps1)
                        (names state) (bots state))
                None None
          | outcome =>
              let winningPlayer :=
                match outcome with a_wins => X | _ => O end in
              let finalRps1 :=
                mkFinalRpsState noPicks (Some (won winningPlayer))
                  (set (score finalRps0) winningPlayer
                       (get (score finalRps0) winningPlayer + 1)%Z)
                  (rounds finalRps0 + 1)%Z in
              if (2 <=? get (score finalRps1) winningPlayer + 1)%Z then
                mkFinalResult
                  (mkGame (boards state) (Some winningPlayer) currentPlayer'
                          (nextBoard state) (pendingRpsBoard state)
                          false (Some finalRps1)
                          (names state) (bots state))
                  None (Some winningPlayer)
              else
                mkFinalResult
                  (mkGame (boards state) (macroWinner state) currentPlayer'
                          (nextBoard state) (pendingRpsBoard state)
                          (pendingFinalRps state) (Some finalRps1)
                          (names state) (bots state))
                  None None
          end
      | _, _ =>
          mkFinalResult
            (mkGame (boards state) (macroWinner state) currentPlayer'
                    (nextBoard state) (pendingRpsBoard state)
                    (pendingFinalRps state) (Some finalRps0)
                    (names state) (bots state))
            None None
      end
  | _, _ => mkFinalResult state (Some "No final RPSLS pending.") None
  end.

(** ** Heuristic evaluation (lines 553-600)

    The scores are small multiples of one half, which doubles represent
    exactly: they are rationals here, with the two infinities the search
    starts from. *)

Inductive num : Type := NegInfinity | Finite (q : Q) | Infinity.

Definition num_gt (a b : num) : bool :=
  match a, b with
  | NegInfinity, _ => false
  | _, Infinity => false
  | Finite x, Finite y => negb (Qle_bool x y)
  | _, _ => true
  end.

Definition Math_max (a b : num) : num := if num_gt b a then b else a.
Definition Math_min (a b : num) : num := if num_gt a b then b else a.

(** [values.filter((v) => v === x).length] over the three cells of a line;
    a cell read outside the array is [undefined], equal to neither player
    nor [null]. *)
Definition countEq (values : list (option Cell)) (x : Cell) : nat :=
  List.length
    (filter (fun v =>
               match v, x with
               | Some (Some p), Some q => Player_eqb p q
               | Some None, None => true
               | _, _ => false
               end) values).

Definition scoreLine (cells : list Cell) (player : Player)
  (line : nat * nat * nat) : Z :=
  let '(a, b, c) := line in
  let opponent := match player with X => O | O => X end in
  let values := [nth_error cells a; nth_error cells b; nth_error cells c] in
  let ours := countEq values (Some player) in
  let theirs := countEq values (Some opponent) in
  let empty := countEq values None in
  if theirs =? 0 then
    if ours =? 3 then 100
    else if (ours =? 2) && (empty =? 1) then 15
    else if (ours =? 1) && (empty =? 2) then 3
    else 0
  else if ours =? 0 then
    if theirs =? 3 then (-100)
    else if (theirs =? 2) && (empty =? 1) then (-12)
    else if (theirs =? 1) && (empty =? 2) then (-2)
    else 0
  else 0.

Definition scoreLines (cells : list Cell) (player : Player) : Z :=
  fold_left (fun score line => (score + scoreLine cells player line)%Z)
            WIN_LINES 0%Z.

Definition evaluateState (state : GameState) (player : Player) : Q :=
  let opponent := match player with X => O | O => X end in
  match macroWinner state with
  | Some w =>
      if Player_eqb w player then 5000 else (-5000)
  | None =>
      let macroCells := map macroCell (boards state) in
      let macroScore := (inject_Z (scoreLines macroCells player) * 20)%Q in
      let microScore :=
        fold_left
          (fun microScore bi =>
             let '(b, idx) := bi in
             match winner b with
             | Some CAT => microScore
             | Some (by_ w) =>
                 if Player_eqb w player then (microScore + 50)%Q
                 else (microScore - 50)%Q
             | None =>
                 let weight :=
                   match nextBoard state with
                   | None => (3 # 2)%Q
                   | Some nb => if Nat.eqb nb idx then (3 # 2)%Q else 1%Q
                   end in
                 (microScore + inject_Z (scoreLines (cells b) player) * weight)%Q
             end)
          (indexed (boards state)) 0%Q in
      (macroScore + microScore)%Q
  end.

(** ** Search (lines 515-551 and 602-604) *)

(** [JSON.parse(JSON.stringify(state))] copies a state value for value. *)
Definition cloneState (state : GameState) : GameState := state.

Fixpoint minimax (depth : nat) (state : GameState) (maximizing : bool)
  (player : Player) : js num :=
  match macroWinner state with
  | Some w =>
      Returns (Finite (if Player_eqb w player then 10000 else (-10000))%Q)
  | None =>
      match depth with
      | 0 => Returns (Finite (evaluateState state player))
      | S depth' =>
          if notNull (pendingRpsBoard state)
          then Returns (Finite (evaluateState state player))
          else
            moves <- availableMoves state ;;
            match moves with
            | [] => Returns (Finite (evaluateState state player))
            | _ :: _ =>
                if maximizing then
                  for_of moves NegInfinity
                    (fun best move =>
                       result <- playMove (cloneState state)
                                          (board move) (cell move) ;;
                       v <- minimax depth' (play_state result) false player ;;
                       Returns (Math_max best v))
                else
                  for_of moves Infinity
                    (fun best move =>
                       result <- playMove (cloneState state)
                                          (board move) (cell move) ;;
                       v <- minimax depth' (play_state result) true player ;;
                       Returns (Math_min best v))
            end
      end
  end.

(** ** Move selection (lines 389-452)

    [random] is the double [Math.random()] returns in the call.  Numbers
    are doubles in the source: the product with the number of moves is the
    double product, and an array read at a double gives the element at
    that index when the double is a whole number inside the array, and
    [undefined] otherwise. *)

(** [n] as a Number, for a length. *)
Definition Number_of_nat (n : nat) : PrimFloat.float :=
  PrimFloat.of_uint63 (Uint63.of_Z (Z.of_nat n)).

(** [xs[Math.floor(x)]]: [Math.floor] of a zero of either sign is that zero,
    which reads index 0; a negative double has a negative floor, and a
    negative number, an infinity and [NaN] name no element. *)
Definition at_floor {A : Type} (xs : list A) (x : PrimFloat.float) : option A :=
  match FloatOps.Prim2SF x with
  | SpecFloat.S754_zero _ => nth_error xs 0
  | SpecFloat.S754_finite false m e =>
      nth_error xs
        (Z.to_nat (if (0 <=? e)%Z then Z.shiftl (Zpos m) e
                   else Z.shiftr (Zpos m) (- e)))
  | _ => None
  end.

Definition tryScore (state : GameState) (moves : list Move) (player : Player)
  : js (option Move) :=
  for_of moves None
    (fun found move =>
       match found with
       | Some m => Returns (Some m)
       | None =>
           result <- playMove (cloneState state) (board move) (cell move) ;;
           match determineMacroWinner (boards (play_state result)) with
           | Some w => if Player_eqb w player then Returns (Some move)
                       else Returns None
           | None => Returns None
           end
       end).

Definition chooseAIMove (random : PrimFloat.float) (state : GameState)
  (level : BotLevel) : js (option Move) :=
  moves <- availableMoves state ;;
  match moves with
  | [] => Returns None
  | _ :: _ =>
      match level with
      | easy =>
          Returns (at_floor moves
                     (PrimFloat.mul random (Number_of_nat (List.length moves))))
      | _ =>
          if notNull (pendingRpsBoard state) then Returns None
          else
            let depth := match level with hard => 3 | _ => 2 end in
            let self := currentPlayer state in
            best <-
              for_of moves (None, NegInfinity)
                (fun best move =>
                   result <- playMove (cloneState state)
                                      (board move) (cell move) ;;
                   score <- minimax (depth - 1) (play_state result) false self ;;
                   if num_gt score (snd best)
                   then Returns (Some move, score)
                   else Returns best) ;;
            match fst best with
            | Some bestMove => Returns (Some bestMove)
            | None =>
                let opponent :=
                  match currentPlayer state with X => O | O => X end in
                winningMove <- tryScore state moves self ;;
                match winningMove with
                | Some m => Returns (Some m)
                | None =>
                    blockingMove <- tryScore state moves opponent ;;
                    match blockingMove with
                    | Some m => Returns (Some m)
                    | None =>
                        match find (fun m => cell m =? 4) moves with
                        | Some m => Returns (Some m)
                        | None =>
                            match find (fun m =>
                                          includes [0; 2; 6; 8] (cell m)) moves
                            with
                            | Some m => Returns (Some m)
                            | None => Returns (nth_error moves 0)
                            end
                        end
                    end
                end
            end
      end
  end.

(** ** Random throws (lines 454-457)

    [random] is the double [Math.random()] returns in the call; the result
    is [None] where the array read gives [undefined]. *)

Definition randomRpsChoice (random : PrimFloat.float) : option RpsChoice :=
  let options := [rock; paper; scissors; lizard; spock] in
  at_floor options
    (PrimFloat.mul random (Number_of_nat (List.length options))).

(** ** Runs of the engine

    The three mutating entry points, and the states they lead to from a
    fresh match.  A run ends where a call throws. *)

Inductive Action : Type :=
| Play (boardIndex cellIndex : nat)
| MicroThrow (player : Player) (choice : RpsChoice)
| FinalThrow (player : Player) (choice : RpsChoice).

Definition perform (state : GameState) (a : Action) : js GameState :=
  match a with
  | Play boardIndex cellIndex =>
      r <- playMove state boardIndex cellIndex ;; Returns (play_state r)
  | MicroThrow player choice =>
      r <- submitRpsChoice state player choice ;; Returns (rps_state r)
  | FinalThrow player choice =>
      Returns (final_state (submitFinalRpsChoice state player choice))
  end.

Fixpoint run (state : GameState) (script : list Action) : js GameState :=
  match script with
  | [] => Returns state
  | a :: rest => next <- perform state a ;; run next rest
  end.

Definition reachable (state : GameState) : Prop :=
  exists script, run createInitialState script = Returns state.

(** The shape the type comments ask for: nine boards of nine cells, and
    board indices that name one of them. *)
Definition indexBelow (n : nat) (o : option nat) : bool :=
  match o with
  | Some i => i <? n
  | None => true
  end.

Definition wellFormed (state : GameState) : bool :=
  (List.length (boards state) =? 9)
  && forallb (fun b => List.length (cells b) =? 9) (boards state)
  && indexBelow 9 (nextBoard state)
  && indexBelow 9 (pendingRpsBoard state).

Definition boardAt (state : GameState) (i : nat) : option MicroBoardState :=
  nth_error (boards state) i.

Definition closedAt (state : GameState) (i : nat) : Prop :=
  exists b, boardAt state i = Some b /\ winner b <> None.

(** ** Persistence (lines 606-624)

    [JSON.stringify] and [JSON.parse] belong to the platform.  What they
    exchange is a JSON value; the text in between is theirs. *)

#[local] Unset Elimination Schemes.
Inductive json : Type :=
| JNull
| JBool (b : bool)
| JNumber (n : Z)
| JString (s : string)
| JArray (items : list json)
| JObject (props : list (string * json)).
#[local] Set Elimination Schemes.

(** The JSON value of each piece of state; a property whose value is
    [undefined] is left out, as [JSON.stringify] does. *)
Definition jsonPlayer (p : Player) : json :=
  JString (match p with X => "X" | O => "O" end).

Definition jsonCell (c : Cell) : json :=
  match c with Some p => jsonPlayer p | None => JNull end.

Definition jsonBotLevel (l : BotLevel) : json :=
  JString (match l with
           | none => "none" | easy => "easy"
           | smart => "smart" | hard => "hard"
           end).

Definition jsonChoice (c : RpsChoice) : json :=
  JString (match c with
           | rock => "rock" | paper => "paper" | scissors => "scissors"
           | lizard => "lizard" | spock => "spock"
           end).

Definition optionalProp (key : string) (v : option json) : list (string * json) :=
  match v with
  | Some j => [(key, j)]
  | None => []
  end.

Definition jsonPicks (p : Picks) : json :=
  JObject (optionalProp "X" (option_map jsonChoice (atX p))
           ++ optionalProp "O" (option_map jsonChoice (atO p))).

Definition jsonOutcome (o : Outcome) : json :=
  match o with won p => jsonPlayer p | tie => JString "tie" end.

Definition jsonRps (r : RpsState) : json :=
  JObject (("picks", jsonPicks (picks r))
           :: optionalProp "lastOutcome" (option_map jsonOutcome (lastOutcome r))).

Definition jsonFinalRps (f : FinalRpsState) : json :=
  JObject ([("picks", jsonPicks (finalPicks f))]
           ++ optionalProp "lastOutcome"
                (option_map jsonOutcome (finalLastOutcome f))
           ++ [("score", JObject [("X", JNumber (atX (score f)));
                                  ("O", JNumber (atO (score f)))]);
               ("rounds", JNumber (rounds f))]).

Definition jsonNullable {A : Type} (f : A -> json) (o : option A) : json :=
  match o with Some a => f a | None => JNull end.

Definition jsonBoard (b : MicroBoardState) : json :=
  JObject [("cells", JArray (map jsonCell (cells b)));
           ("winner", jsonNullable
                        (fun w => match w with
                                  | by_ p => jsonPlayer p
                                  | CAT => JString "CAT"
                                  end) (winner b));
           ("rps", jsonNullable jsonRps (rps b))].

Definition jsonIndex (i : nat) : json := JNumber (Z.of_nat i).

Definition stateProps (state : GameState) : list (string * json) :=
  [("boards", JArray (map jsonBoard (boards state)));
   ("macroWinner", jsonNullable jsonPlayer (macroWinner state));
   ("currentPlayer", jsonPlayer (currentPlayer state));
   ("nextBoard", jsonNullable jsonIndex (nextBoard state));
   ("pendingRpsBoard", jsonNullable jsonIndex (pendingRpsBoard state));
   ("pendingFinalRps", JBool (pendingFinalRps state));
   ("finalRps", jsonNullable jsonFinalRps (finalRps state));
   ("names", JObject [("X", JString (atX (names state)));
                      ("O", JString (atO (names state)))]);
   ("bots", JObject [("X", jsonBotLevel (atX (bots state)));
                     ("O", jsonBotLevel (atO (bots state)))])].

Definition toJSON (state : GameState) : json := JObject (stateProps state).

(** [o[key]] on an object's own properties. *)
Fixpoint property (key : string) (props : list (string * json)) : option json :=
  match props with
  | [] => None
  | (k, v) :: rest => if String.eqb k key then Some v else property key rest
  end.

(** [!v] *)
Definition falsy (v : json) : bool :=
  match v with
  | JNull => true
  | JBool b => negb b
  | JNumber n => (n =? 0)%Z
  | JString s => String.eqb s ""
  | JArray _ | JObject _ => false
  end.

(** [v.length !== 9], for a truthy [v]: arrays and strings have a length
    (a string's is its number of characters, all ASCII in what the engine
    writes), an object has the one it carries as a property, anything else
    none. *)
Definition lengthIsNot9 (v : json) : bool :=
  match v with
  | JArray items => negb (List.length items =? 9)
  | JString s => negb (String.length s =? 9)
  | JObject props =>
      match property "length" props with
      | Some (JNumber 9) => false
      | _ => true
      end
  | _ => true
  end.

(** [o[key] = v] *)
Fixpoint assignProp (props : list (string * json)) (key : string) (v : json)
  : list (string * json) :=
  match props with
  | [] => [(key, v)]
  | (k, old) :: rest =>
      if String.eqb k key then (k, v) :: rest
      else (k, old) :: assignProp rest key v
  end.

(** [{ ...a, ...b }] *)
Definition spread (a b : list (string * json)) : list (string * json) :=
  fold_left (fun acc kv => assignProp acc (fst kv) (snd kv)) b a.

Section Persistence.

(** [JSON.stringify], and [JSON.parse] with [None] for a [SyntaxError]. *)
Variable JSON_stringify : json -> string.
Variable JSON_parse : string -> option json.

Definition serializeState (state : GameState) : string :=
  JSON_stringify (toJSON state).

(** [raw] is [None] for [null] and [undefined].  Reading [boards] off a
    parsed [null] throws, and the [catch] answers like the other failures;
    any other value that is not an object has no [boards]. *)
Definition parseState (raw : option string) : json :=
  match raw with
  | None => toJSON createInitialState
  | Some text =>
      if String.eqb text "" then toJSON createInitialState
      else
        match JSON_parse text with
        | None => toJSON createInitialState
        | Some JNull => toJSON createInitialState
        | Some (JObject props) =>
            match property "boards" props with
            | None => toJSON createInitialState
            | Some bs =>
                if falsy bs || lengthIsNot9 bs
                then toJSON createInitialState
                else JObject (spread (stateProps createInitialState) props)
            end
        | Some _ => toJSON createInitialState
        end
  end.

End Persistence.

(** *** Texts for the examples

    [JSON_text] writes a JSON value as [JSON.stringify] does when no string
    in it needs an escape other than those of the quote and the backslash,
    as is the case of the states of the examples.  [readsAs text v] is a
    reader that gives [v] for [text] and fails on every other text: it
    stands, in an example, for what [JSON.parse] returns on the one text
    the example feeds it.  The theorems depend on neither. *)

Definition quoteChar : ascii := ascii_of_nat 34.
Definition quoteString : string := String quoteChar EmptyString.

Fixpoint escapeString (s : string) : string :=
  match s with
  | EmptyString => EmptyString
  | String c rest =>
      if Ascii.eqb c quoteChar || Ascii.eqb c "\"%char
      then String "\"%char (String c (escapeString rest))
      else String c (escapeString rest)
  end.

Definition quoted (s : string) : string :=
  append quoteString (append (escapeString s) quoteString).

Fixpoint JSON_text (j : json) : string :=
  match j with
  | JNull => "null"
  | JBool true => "true"
  | JBool false => "false"
  | JNumber n => NilZero.string_of_int (Z.to_int n)
  | JString s => quoted s
  | JArray items =>
      append "["
        (append
           ((fix elements (l : list json) : string :=
               match l with
               | [] => EmptyString
               | x :: rest =>
                   match rest with
                   | [] => JSON_text x
                   | _ :: _ => append (JSON_text x) (append "," (elements rest))
                   end
               end) items)
           "]")
  | JObject props =>
      append "{"
        (append
           ((fix members (l : list (string * json)) : string :=
               match l with
               | [] => EmptyString
               | (k, v) :: rest =>
                   match rest with
                   | [] => append (quoted k) (append ":" (JSON_text v))
                   | _ :: _ =>
                       append (quoted k)
                         (append ":"
                            (append (JSON_text v) (append "," (members rest))))
                   end
               end) props)
           "}")
  end.

Definition readsAs (text : string) (v : json) : string -> option json :=
  fun t => if String.eqb t text then Some v else None.

(** The text [{"boards":[0,0,0,0,0,0,0,0,0]}]: nine boards that are not
    boards, and no other field. *)
Definition incompleteText : string :=
  append "{"
    (append quoteString
       (append "boards" (append quoteString ":[0,0,0,0,0,0,0,0,0]}"))).

(** What [JSON.parse] gives for that text. *)
Definition incompleteValue : json :=
  JObject [("boards", JArray (repeat (JNumber 0) 9))].

(** The text [{"boards":null}] and its value. *)
Definition nullBoardsText : string :=
  append "{" (append quoteString (append "boards" (append quoteString ":null}"))).

Definition nullBoardsValue : json := JObject [("boards", JNull)].

(** ** States used as examples *)

(** The state a sequence of calls leads to from [state], or [state] itself
    if a call throws. *)
Definition after (state : GameState) (script : list Action) : GameState :=
  match run state script with
  | Returns next => next
  | Throws _ => state
  end.

(** A board with one mark, in cell 1. *)
Definition oneMark (p : Player) : MicroBoardState :=
  mkBoard [None; Some p; None; None; None; None; None; None; None] None None.

(** Boards won by a top row. *)
Definition wonByX : MicroBoardState :=
  mkBoard [Some X; Some X; Some X; Some O; Some O; None; None; None; None]
          (Some (by_ X)) None.

Definition wonByO : MicroBoardState :=
  mkBoard [Some O; Some O; Some O; Some X; Some X; None; Some X; None; None]
          (Some (by_ O)) None.

(** A board filled as O,X,O / X,X,O / X,O,X: full, without a line, its
    tiebreak not yet begun. *)
Definition catBoard : MicroBoardState :=
  mkBoard [Some O; Some X; Some O; Some X; Some X; Some O;
           Some X; Some O; Some X]
          (Some CAT) (Some (mkRpsState noPicks None)).

(** A match in which board 1 has just filled without a line: its micro
    tiebreak is pending, and X has won board 2. *)
Definition drawnMatch : GameState :=
  mkGame [createEmptyBoard; catBoard; wonByX; oneMark O; oneMark O;
          oneMark X; oneMark O; oneMark X; oneMark O]
         None X (Some 0) (Some 1) false None
         defaultNames (mkPlayerMap none none).

(** [drawnMatch] once X has thrown spock, its drawn board, and the results
    of O answering with spock and with rock. *)
Definition afterSpock : GameState := after drawnMatch [MicroThrow X spock].

Definition drawnBoard : MicroBoardState :=
  nth 1 (boards afterSpock) createEmptyBoard.

Definition tiedThrowResult : RpsResult :=
  mkRpsResult (after drawnMatch [MicroThrow X spock; MicroThrow O spock])
              None None.

Definition decidedReport : ResolvedRps :=
  mkResolvedRps 1 X (mkPlayerMap spock rock) "vaporizes".

Definition decidedThrowResult : RpsResult :=
  mkRpsResult (after drawnMatch [MicroThrow X spock; MicroThrow O rock])
              None (Some decidedReport).

(** A match with X's macro line on boards 2, 4 and 6, open boards left and
    play sent to board 1. *)
Definition macroWonMatch : GameState :=
  mkGame [oneMark O; createEmptyBoard; wonByX; oneMark O; wonByX;
          oneMark O; wonByX; createEmptyBoard; oneMark X]
         (Some X) O (Some 1) None false None
         defaultNames (mkPlayerMap none none).

(** A match with every board closed and no macro line (X,O,X / X,O,O /
    O,X,X), the galaxy tiebreak armed at 0-0. *)
Definition galaxyMatch : GameState :=
  mkGame [wonByX; wonByO; wonByX; wonByX; wonByO; wonByO;
          wonByO; wonByX; wonByX]
         None O None None true (Some freshFinalRps)
         defaultNames (mkPlayerMap none none).

(** The same match once X's rock has beaten O's scissors in the galaxy
    tiebreak. *)
Definition finishedMatch : GameState :=
  after galaxyMatch [FinalThrow X rock; FinalThrow O scissors].

(** The same match one move earlier: board 8 is the last open board, X is
    to move and is sent there, and cell 2 completes X's top row, which
    closes the board without completing a macro line. *)
Definition lastOpenBoard : MicroBoardState :=
  mkBoard [Some X; Some X; None; Some O; Some O; None; None; None; None]
          None None.

Definition lastMoveMatch : GameState :=
  mkGame [wonByX; wonByO; wonByX; wonByX; wonByO; wonByO;
          wonByO; wonByX; lastOpenBoard]
         None X (Some 8) None false None
         defaultNames (mkPlayerMap none none).

(** The same match with board 8 drawn instead, its tiebreak pending, and
    the result of X's rock and O's scissors, which settle it for X. *)
Definition lastThrowMatch : GameState :=
  mkGame [wonByX; wonByO; wonByX; wonByX; wonByO; wonByO;
          wonByO; wonByX; catBoard]
         None X None (Some 8) false None
         defaultNames (mkPlayerMap none none).

Definition armingThrowResult : RpsResult :=
  mkRpsResult (after lastThrowMatch [MicroThrow X rock; MicroThrow O scissors])
              None
              (Some (mkResolvedRps 8 X (mkPlayerMap rock scissors) "crushes")).

(** A match three moves in: X in the centre of board 4, O in its corner 0,
    X in the centre of board 0; O is sent to board 4. *)
Definition sentMatch : GameState :=
  mkGame [mkBoard [None; None; None; None; Some X; None; None; None; None]
                  None None;
          createEmptyBoard; createEmptyBoard; createEmptyBoard;
          mkBoard [Some O; None; None; None; Some X; None; None; None; None]
                  None None;
          createEmptyBoard; createEmptyBoard; createEmptyBoard;
          createEmptyBoard]
         None O (Some 4) None false None
         defaultNames (mkPlayerMap none none).

(** ** Predicates of the statements and proofs *)

(** How many of the three special modes a state is in: a micro tiebreak
    pending, the galaxy tiebreak pending, the match won.  Normal play is
    none of them. *)
Definition modesHeld (state : GameState) : nat :=
  (if notNull (pendingRpsBoard state) then 1 else 0)
  + (if pendingFinalRps state then 1 else 0)
  + (if notNull (macroWinner state) then 1 else 0).

(** The rule of lines 98-111 as a predicate: with no tiebreak pending, an
    open board is legal when play is not sent to a board, when it is the
    board play is sent to, or when the board play is sent to is closed. *)
Definition legalBoard (state : GameState) (i : nat) : Prop :=
  pendingRpsBoard state = None
  /\ pendingFinalRps state = false
  /\ (exists b, boardAt state i = Some b /\ winner b = None)
  /\ match nextBoard state with
     | None => True
     | Some nb => nb = i \/ closedAt state nb
     end.

Definition emptyCellAt (state : GameState) (i c : nat) : Prop :=
  exists b, boardAt state i = Some b /\ nth_error (cells b) c = Some None.

Definition rpsAt (state : GameState) (i : nat) : option RpsState :=
  match boardAt state i with
  | Some b => rps b
  | None => None
  end.

(** [board.rps ?? { picks: {}, lastOutcome: undefined }] with the throw of
    [player] recorded (lines 244-246). *)
Definition thrownPicks (b : MicroBoardState) (player : Player)
  (choice : RpsChoice) : Picks :=
  set (picks (match rps b with
              | Some r => r
              | None => mkRpsState noPicks None
              end)) player (Some choice).

(** Every closed board of [state] is still closed in [next], with the same
    cells. *)
Definition keepsClosed (state next : GameState) : Prop :=
  forall i b,
    boardAt state i = Some b ->
    winner b <> None ->
    exists b', boardAt next i = Some b' /\ cells b' = cells b
               /\ winner b' <> None.

(** ** Predicates of the further properties *)

Unset Implicit Arguments.

(** The three cells of [line] all hold [p]'s mark. *)
Definition lineHeldBy (cells : list Cell) (p : Player)
  (line : nat * nat * nat) : Prop :=
  let '(a, b, c) := line in
  at_ cells a = Some p /\ at_ cells b = Some p /\ at_ cells c = Some p.

(** [state.boards[i].cells[j]], [None] outside the arrays. *)
Definition markAt (state : GameState) (i j : nat) : option Cell :=
  match boardAt state i with
  | Some b => nth_error (cells b) j
  | None => None
  end.

(** What a call of [submitRpsChoice] that returns has done: the
    rejection, a throw that leaves the round open (an incomplete round or a
    tie: only the board's [rps] and the turn change), or a decisive round. *)
Inductive submitRps_outcome (state : GameState) (player : Player)
  (choice : RpsChoice) : RpsResult -> Prop :=
| rps_rejected :
    pendingRpsBoard state = None ->
    submitRps_outcome state player choice
      (mkRpsResult state (Some "No RPS pending.") None)
| rps_open (i : nat) (b u : MicroBoardState) :
    pendingRpsBoard state = Some i ->
    nth_error (boards state) i = Some b ->
    cells u = cells b ->
    winner u = winner b ->
    submitRps_outcome state player choice
      (mkRpsResult
         (mkGame (replaceBoard (boards state) i u) (macroWinner state)
                 (other player) (nextBoard state) (Some i)
                 (pendingFinalRps state) (finalRps state)
                 (names state) (bots state))
         None None)
| rps_decided (i : nat) (b u : MicroBoardState) (w : Player)
    (d : ResolvedRps) (armed : bool) :
    pendingRpsBoard state = Some i ->
    nth_error (boards state) i = Some b ->
    cells u = cells b ->
    winner u = Some (by_ w) ->
    armed = isNull (determineMacroWinner (replaceBoard (boards state) i u))
            && allClosed (replaceBoard (boards state) i u) ->
    submitRps_outcome state player choice
      (mkRpsResult
         (mkGame (replaceBoard (boards state) i u)
                 (determineMacroWinner (replaceBoard (boards state) i u))
                 (currentPlayer state) (nextBoard state) None
                 (if armed then true else pendingFinalRps state)
                 (if armed then finalRpsOrFresh state else finalRps state)
                 (names state) (bots state))
         None (Some d)).

(** A board whose [winner] agrees with its cells: an open board has no
    line and an empty cell, a drawn board is full without a line, a won
    board shows the winner's line or is a full board without a line (one
    that a throw settled). *)
Definition boardSound (b : MicroBoardState) : Prop :=
  match winner b with
  | None => detectWinner (cells b) = None /\ boardIsFull (cells b) = false
  | Some CAT => detectWinner (cells b) = None /\ boardIsFull (cells b) = true
  | Some (by_ p) =>
      detectWinner (cells b) = Some p
      \/ (detectWinner (cells b) = None /\ boardIsFull (cells b) = true)
  end.

Definition finalRpsSound (f : FinalRpsState) : Prop :=
  (0 <= atX (score f))%Z
  /\ (0 <= atO (score f))%Z
  /\ rounds f = (atX (score f) + atO (score f))%Z.

(** What the fields of a state have to do with each other in a match. *)
Record consistent (state : GameState) : Prop := mkConsistent {
  boards_sound :
    forall j b, boardAt state j = Some b -> boardSound b;
  cat_is_pending :
    forall j b, boardAt state j = Some b ->
                (winner b = Some CAT <-> pendingRpsBoard state = Some j);
  line_is_winner :
    forall w, determineMacroWinner (boards state) = Some w ->
              macroWinner state = Some w;
  winner_has_line :
    forall w, macroWinner state = Some w ->
              determineMacroWinner (boards state) = Some w
              \/ (determineMacroWinner (boards state) = None
                  /\ allClosed (boards state) = true
                  /\ option_map finalLastOutcome (finalRps state)
                     = Some (Some (won w)));
  galaxy_pending :
    pendingFinalRps state = true ->
    determineMacroWinner (boards state) = None
    /\ allClosed (boards state) = true
    /\ pendingRpsBoard state = None
    /\ macroWinner state = None
    /\ finalRps state <> None;
  never_stalls :
    allClosed (boards state) = true ->
    pendingRpsBoard state = None ->
    macroWinner state = None ->
    pendingFinalRps state = true;
  final_sound :
    forall f, finalRps state = Some f -> finalRpsSound f
}.

(** The order in which [availableMoves] lists moves: by board, then by
    cell. *)
Definition moveBefore (m1 m2 : Move) : Prop :=
  board m1 < board m2 \/ (board m1 = board m2 /\ cell m1 < cell m2).

(** * Properties *)

Unset Implicit Arguments.

(** Case analysis on the [match]es of a hypothesis or of the goal. *)
Ltac break_match_in H :=
  match type of H with
  | context [match ?x with _ => _ end] => destruct x eqn:?
  end.

Ltac break_innermost :=
  match goal with
  | |- context [match ?x with _ => _ end] =>
      lazymatch x with
      | context [match _ with _ => _ end] => fail
      | _ => destruct x eqn:?
      end
  end.

Ltac submit_cases H :=
  repeat (break_match_in H; simpl in H; try discriminate H);
  injection H as <-.

(** ** The model on examples *)

(** The first move of a match: the centre of the centre board is legal and
    empty, and the call throws. *)
Example first_move_throws :
  playMove createInitialState 4 4 = Throws ReferenceError.
Proof. reflexivity. Qed.

(** While a drawn board waits for its throws, every move is turned down. *)
Example pending_tiebreak_scenario :
  option_map winner (boardAt drawnMatch 1) = Some (Some CAT)
  /\ rpsAt drawnMatch 1 = Some (mkRpsState noPicks None)
  /\ pendingRpsBoard drawnMatch = Some 1
  /\ playMove drawnMatch 0 0
     = Returns (mkPlayResult drawnMatch
                  (Some "Finish Rock-Paper-Scissors first.")).
Proof. repeat split; vm_compute; reflexivity. Qed.

Example decisive_throw_scenario :
  exists r,
    submitRpsChoice afterSpock O scissors = Returns r
    /\ resolvedRps r
       = Some (mkResolvedRps 1 X (mkPlayerMap spock scissors) "smashes")
    /\ option_map winner (boardAt (rps_state r) 1) = Some (Some (by_ X))
    /\ pendingRpsBoard (rps_state r) = None.
Proof.
  eexists. split; [vm_compute; reflexivity|].
  repeat split; vm_compute; reflexivity.
Qed.

Example send_anywhere_scenario :
  getAllowedBoards sentMatch = Returns [4]
  /\ getAllowedBoards macroWonMatch = Returns [1]
  /\ getAllowedBoards
       (mkGame (boards macroWonMatch) (macroWinner macroWonMatch) X (Some 2)
               None false None defaultNames (mkPlayerMap none none))
     = Returns [0; 1; 3; 5; 7; 8].
Proof. repeat split; vm_compute; reflexivity. Qed.

(** In double arithmetic 3/5 (the double nearest to 0.6) times 5 is 3, so
    the draw reads index 3; the exact product is below 3. *)
Example randomRpsChoice_of_a_double :
  randomRpsChoice (PrimFloat.div (Number_of_nat 3) (Number_of_nat 5))
  = Some lizard
  /\ randomRpsChoice (PrimFloat.div (Number_of_nat 1) (Number_of_nat 2))
     = Some scissors.
Proof. split; vm_compute; reflexivity. Qed.

Lemma compareRps_total a b :
  (a = b /\ compareRps a b = is_tie)
  \/ (a <> b /\ compareRps a b = a_wins /\ compareRps b a = b_wins)
  \/ (a <> b /\ compareRps a b = b_wins /\ compareRps b a = a_wins).
Proof.
  destruct a, b; vm_compute;
    first [left; split; [reflexivity|reflexivity]
          |right; left; repeat split; discriminate
          |right; right; repeat split; discriminate].
Qed.

Example determineMacroWinner_scenario :
  determineMacroWinner (repeat createEmptyBoard 9) = None
  /\ determineMacroWinner
       (map (fun w => mkBoard (repeat None 9) w None)
            [Some (by_ O); Some CAT; Some (by_ O);
             Some (by_ X); Some (by_ X); Some (by_ X);
             None; None; None]) = Some X.
Proof. split; reflexivity. Qed.

(** ** Lists with indices *)

Lemma nth_error_combine_seq (A : Type) (xs : list A) (k j : nat) :
  nth_error (combine xs (seq k (List.length xs))) j
  = option_map (fun x => (x, k + j)) (nth_error xs j).
Proof.
  revert k j; induction xs as [|x xs IH]; intros k j; simpl.
  - destruct j; reflexivity.
  - destruct j as [|j]; simpl.
    + now rewrite Nat.add_0_r.
    + rewrite IH. now replace (S k + j) with (k + S j) by lia.
Qed.

Lemma nth_error_indexed (A : Type) (xs : list A) (j : nat) :
  nth_error (indexed xs) j = option_map (fun x => (x, j)) (nth_error xs j).
Proof. unfold indexed. now rewrite nth_error_combine_seq. Qed.

Lemma In_indexed (A : Type) (xs : list A) (x : A) (i : nat) :
  In (x, i) (indexed xs) <-> nth_error xs i = Some x.
Proof.
  split.
  - intros H. apply In_nth_error in H. destruct H as [j Hj].
    rewrite nth_error_indexed in Hj.
    destruct (nth_error xs j) eqn:E; simpl in Hj; [|discriminate].
    injection Hj as -> ->. exact E.
  - intros H. apply nth_error_In with (n := i).
    rewrite nth_error_indexed, H. reflexivity.
Qed.

Lemma length_indexed (A : Type) (xs : list A) :
  List.length (indexed xs) = List.length xs.
Proof.
  unfold indexed. rewrite length_combine, length_seq. apply Nat.min_id.
Qed.

Lemma nth_error_replaceBoard bs i u j :
  nth_error (replaceBoard bs i u) j
  = option_map (fun b => if j =? i then u else b) (nth_error bs j).
Proof.
  unfold replaceBoard. rewrite nth_error_map, nth_error_indexed.
  destruct (nth_error bs j); reflexivity.
Qed.

Lemma length_replaceBoard bs i u :
  List.length (replaceBoard bs i u) = List.length bs.
Proof. unfold replaceBoard. now rewrite length_map, length_indexed. Qed.

Lemma In_openBoards bs i :
  In i (openBoards bs) <-> exists b, nth_error bs i = Some b /\ winner b = None.
Proof.
  unfold openBoards. rewrite in_map_iff. split.
  - intros [[b j] [Hj Hin]]. simpl in Hj. subst j.
    apply filter_In in Hin. destruct Hin as [Hin Hw]. simpl in Hw.
    apply In_indexed in Hin. exists b. split; [exact Hin|].
    now destruct (winner b).
  - intros [b [Hb Hw]]. exists (b, i). split; [reflexivity|].
    apply filter_In. split; [now apply In_indexed|]. simpl. now rewrite Hw.
Qed.

Lemma includes_In xs i : includes xs i = true <-> In i xs.
Proof.
  unfold includes. rewrite existsb_exists. split.
  - intros [x [Hx E]]. apply Nat.eqb_eq in E. now subst.
  - intros H. exists i. split; [exact H|apply Nat.eqb_refl].
Qed.

Lemma length_assign (A : Type) (xs : list A) i v :
  List.length (assign xs i v) = List.length xs.
Proof.
  revert i; induction xs as [|x xs IH]; intros [|i]; simpl; auto.
Qed.

Lemma notNull_true (A : Type) (o : option A) : notNull o = true <-> o <> None.
Proof. destruct o; unfold notNull; simpl; split; congruence. Qed.

Lemma notNull_false (A : Type) (o : option A) : notNull o = false <-> o = None.
Proof. destruct o; unfold notNull; simpl; split; congruence. Qed.

Lemma isNull_true (A : Type) (o : option A) : isNull o = true <-> o = None.
Proof. destruct o; simpl; split; congruence. Qed.

(** ** Legal boards are open boards *)

Lemma getAllowedBoards_In state allowed i :
  getAllowedBoards state = Returns allowed ->
  In i allowed ->
  pendingRpsBoard state = None /\ pendingFinalRps state = false
  /\ exists b, nth_error (boards state) i = Some b /\ winner b = None.
Proof.
  unfold getAllowedBoards. intros H Hin.
  destruct (pendingRpsBoard state) as [k|] eqn:Ep; simpl in H.
  { injection H as <-. destruct Hin. }
  destruct (pendingFinalRps state) eqn:Ef; simpl in H.
  { injection H as <-. destruct Hin. }
  split; [reflexivity|]. split; [reflexivity|].
  destruct (nextBoard state) as [nb|].
  - destruct (nth_error (boards state) nb) as [target|] eqn:Et; [|discriminate].
    destruct (winner target) eqn:Ew; simpl in H; injection H as <-.
    + now apply In_openBoards.
    + destruct Hin as [<-|[]]. now exists target.
  - injection H as <-. now apply In_openBoards.
Qed.

Lemma getAllowedBoards_spec state allowed i :
  getAllowedBoards state = Returns allowed ->
  (In i allowed <-> legalBoard state i).
Proof.
  intros H. split.
  - intros Hin.
    destruct (getAllowedBoards_In _ _ _ H Hin) as [Hp [Hf Hopen]].
    unfold legalBoard. repeat split; auto.
    unfold getAllowedBoards in H. rewrite Hp, Hf in H. simpl in H.
    destruct (nextBoard state) as [nb|]; [|exact I].
    destruct (nth_error (boards state) nb) as [target|] eqn:Et; [|discriminate].
    destruct (winner target) eqn:Ew; simpl in H; injection H as <-.
    + right. exists target. split; [exact Et|congruence].
    + destruct Hin as [<-|[]]. now left.
  - intros [Hp [Hf [Hopen Hn]]].
    unfold getAllowedBoards in H. rewrite Hp, Hf in H. simpl in H.
    destruct (nextBoard state) as [nb|].
    + destruct (nth_error (boards state) nb) as [target|] eqn:Et; [|discriminate].
      destruct (winner target) eqn:Ew; simpl in H; injection H as <-.
      * now apply In_openBoards.
      * destruct Hn as [->|[b [Hb Hw]]]; [now left|].
        unfold boardAt in Hb. congruence.
    + injection H as <-. now apply In_openBoards.
Qed.

Lemma legalBoard_allowed state i :
  legalBoard state i ->
  exists allowed, getAllowedBoards state = Returns allowed /\ In i allowed.
Proof.
  intros [Hp [Hf [[b [Hb Hw]] Hn]]].
  unfold getAllowedBoards. rewrite Hp, Hf. simpl.
  assert (Hopen : In i (openBoards (boards state))).
  { apply In_openBoards. now exists b. }
  destruct (nextBoard state) as [nb|]; [|eauto].
  destruct Hn as [->|[t [Ht Hwt]]].
  - unfold boardAt in Hb. rewrite Hb, Hw. simpl. eexists. split; [reflexivity|].
    now left.
  - unfold boardAt in Ht. rewrite Ht.
    destruct (winner t); [simpl; eauto|congruence].
Qed.

(** ** A move that passes the checks throws *)

Lemma playMove_commit_throws state boardIndex cellIndex board :
  playMove_commit state boardIndex cellIndex board = Throws ReferenceError.
Proof.
  unfold playMove_commit. cbv zeta.
  now destruct (_ && _).
Qed.

Lemma playMove_inv state boardIndex cellIndex r :
  playMove state boardIndex cellIndex = Returns r ->
  exists msg,
    In msg ["Finish Rock-Paper-Scissors first.";
            "You cannot play in that board right now.";
            "That board is already decided.";
            "That square is already taken."]
    /\ r = mkPlayResult state (Some msg).
Proof.
  unfold playMove. intros H.
  destruct (notNull (pendingRpsBoard state)).
  { injection H as <-. eexists. split; [|reflexivity]. simpl; auto. }
  destruct (getAllowedBoards state) as [allowed|e]; simpl in H;
    [|discriminate].
  destruct (negb (includes allowed boardIndex)).
  { injection H as <-. eexists. split; [|reflexivity]. simpl; auto. }
  destruct (nth_error (boards state) boardIndex) as [b|]; [|discriminate].
  destruct (notNull (winner b)).
  { injection H as <-. eexists. split; [|reflexivity]. simpl; auto. }
  destruct (nth_error (cells b) cellIndex) as [[p|]|].
  - injection H as <-. eexists. split; [|reflexivity]. simpl; auto 6.
  - rewrite playMove_commit_throws in H. discriminate.
  - injection H as <-. eexists. split; [|reflexivity]. simpl; auto 6.
Qed.

Lemma playMove_unchanged state boardIndex cellIndex r :
  playMove state boardIndex cellIndex = Returns r ->
  play_state r = state /\ play_error r <> None.
Proof.
  intros H. apply playMove_inv in H. destruct H as [msg [_ ->]].
  split; [reflexivity|discriminate].
Qed.

Lemma playMove_legal_throws state boardIndex cellIndex :
  legalBoard state boardIndex ->
  emptyCellAt state boardIndex cellIndex ->
  playMove state boardIndex cellIndex = Throws ReferenceError.
Proof.
  intros Hl [b [Hb Hc]].
  destruct (legalBoard_allowed _ _ Hl) as [allowed [Ha Hin]].
  destruct Hl as [Hp [Hf [[b' [Hb' Hw]] Hn]]].
  assert (b' = b) by congruence. subst b'.
  unfold playMove. rewrite Hp, Ha. simpl.
  apply includes_In in Hin. rewrite Hin. simpl.
  unfold boardAt in Hb. rewrite Hb, Hw, Hc. simpl.
  apply playMove_commit_throws.
Qed.

Lemma perform_Play_unchanged state boardIndex cellIndex next :
  perform state (Play boardIndex cellIndex) = Returns next -> next = state.
Proof.
  simpl. intros H.
  destruct (playMove state boardIndex cellIndex) as [r|e] eqn:E;
    [|discriminate].
  simpl in H. injection H as <-. now apply playMove_unchanged in E.
Qed.

(** ** The modes of a state *)

Lemma submitRpsChoice_modes state player choice r :
  modesHeld state <= 1 ->
  submitRpsChoice state player choice = Returns r ->
  modesHeld (rps_state r) <= 1.
Proof.
  intros Hm H. unfold submitRpsChoice in H.
  destruct (pendingRpsBoard state) as [i|] eqn:Ep.
  2:{ injection H as <-. exact Hm. }
  unfold modesHeld in Hm. rewrite Ep in Hm. simpl in Hm.
  destruct (pendingFinalRps state) eqn:Ef; [simpl in Hm; lia|].
  destruct (macroWinner state) as [w|] eqn:Ew; [simpl in Hm; lia|].
  rewrite andb_false_r in H. simpl in H.
  submit_cases H; unfold modesHeld; simpl; rewrite ?Ef; simpl; try lia;
    match goal with
    | E : isNull ?m && _ = true |- _ =>
        simpl in E; apply andb_prop in E; destruct E as [E _];
        apply isNull_true in E; rewrite E; simpl; lia
    | |- context [notNull ?m] => destruct (notNull m); simpl; lia
    end.
Qed.

Lemma submitFinalRpsChoice_modes state player choice :
  modesHeld state <= 1 ->
  modesHeld (final_state (submitFinalRpsChoice state player choice)) <= 1.
Proof.
  intros Hm. unfold submitFinalRpsChoice.
  destruct (pendingFinalRps state) eqn:Ef; [|exact Hm].
  destruct (finalRps state) as [current|]; [|exact Hm].
  unfold modesHeld in Hm. rewrite Ef in Hm.
  destruct (pendingRpsBoard state) as [i|] eqn:Ep; [simpl in Hm; lia|].
  destruct (macroWinner state) as [w|] eqn:Ew; [simpl in Hm; lia|].
  repeat break_innermost; unfold modesHeld; simpl;
    rewrite ?Ep, ?Ef, ?Ew; simpl; lia.
Qed.

Lemma perform_modes state a next :
  modesHeld state <= 1 ->
  perform state a = Returns next ->
  modesHeld next <= 1.
Proof.
  intros Hm H. destruct a as [b c|p ch|p ch].
  - apply perform_Play_unchanged in H. now subst.
  - simpl in H.
    destruct (submitRpsChoice state p ch) as [r|e] eqn:E; [|discriminate].
    simpl in H. injection H as <-.
    eapply submitRpsChoice_modes; eassumption.
  - simpl in H. injection H as <-. now apply submitFinalRpsChoice_modes.
Qed.

Lemma run_modes script : forall state next,
  modesHeld state <= 1 ->
  run state script = Returns next ->
  modesHeld next <= 1.
Proof.
  induction script as [|a rest IH]; intros state next Hm H; simpl in H.
  - now injection H as <-.
  - destruct (perform state a) as [mid|e] eqn:E; [|discriminate].
    simpl in H. eapply IH; [|exact H].
    eapply perform_modes; eassumption.
Qed.

Lemma run_after state script :
  returns (run state script) ->
  run state script = Returns (after state script).
Proof. intros [next H]. unfold after. now rewrite H. Qed.

(** C1: in every state reachable from [createInitialState] by [playMove],
    [submitRpsChoice] and [submitFinalRpsChoice] at most one of the three
    special modes holds (a micro tiebreak pending, the galaxy tiebreak
    pending, a macro winner), so exactly one of the four modes does; and
    the same is true of every state a sequence of these calls leads to
    from any state in which at most one holds. *)
Theorem modes_are_exclusive :
  (forall state, reachable state -> modesHeld state <= 1)
  /\ (forall start script state,
        modesHeld start <= 1 ->
        run start script = Returns state ->
        modesHeld state <= 1).
Proof.
  split.
  - intros state [script H]. apply (run_modes script createInitialState).
    + vm_compute. lia.
    + exact H.
  - intros start script state. apply run_modes.
Qed.

Lemma modes_are_exclusive_witness :
  modesHeld createInitialState <= 1
  /\ modesHeld
       (after drawnMatch
          [Play 0 0; MicroThrow X spock; MicroThrow O spock;
           MicroThrow O rock; MicroThrow X paper; FinalThrow X rock]) <= 1.
Proof.
  split.
  - apply (proj1 modes_are_exclusive createInitialState).
    exists [MicroThrow X rock; Play 9 9; FinalThrow O rock].
    vm_compute. reflexivity.
  - apply (proj2 modes_are_exclusive drawnMatch
             [Play 0 0; MicroThrow X spock; MicroThrow O spock;
              MicroThrow O rock; MicroThrow X paper; FinalThrow X rock]).
    + vm_compute. lia.
    + vm_compute. reflexivity.
Defined.

(** ** The galaxy tiebreak *)

(** C2 fails on the code: the test of line 492 adds one to a score that
    line 488 has already incremented, so the first decisive round ends the
    tiebreak.  From a state with the tiebreak armed at 0-0 and after X has
    thrown rock, O's scissors make X the macro winner with a score of 1. *)
Lemma galaxy_tiebreak_ends_at_score_one :
  let state := after galaxyMatch [FinalThrow X rock] in
  let r := submitFinalRpsChoice state O scissors in
  pendingFinalRps state = true
  /\ option_map score (finalRps state) = Some (mkPlayerMap 0 0)%Z
  /\ final_error r = None
  /\ finalWinner r = Some X
  /\ macroWinner (final_state r) = Some X
  /\ pendingFinalRps (final_state r) = false
  /\ option_map score (finalRps (final_state r)) = Some (mkPlayerMap 1 0)%Z
  /\ option_map rounds (finalRps (final_state r)) = Some 1%Z.
Proof. cbv zeta. repeat split; vm_compute; reflexivity. Qed.

(** The defect is systematic: whenever both throws are in and differ, the
    call ends the tiebreak, whatever the (non-negative) score was. *)
Lemma submitFinalRpsChoice_decisive_round_ends state current player choice x o :
  pendingFinalRps state = true ->
  finalRps state = Some current ->
  (0 <= atX (score current))%Z ->
  (0 <= atO (score current))%Z ->
  atX (set (finalPicks current) player (Some choice)) = Some x ->
  atO (set (finalPicks current) player (Some choice)) = Some o ->
  compareRps x o <> is_tie ->
  let r := submitFinalRpsChoice state player choice in
  pendingFinalRps (final_state r) = false
  /\ finalWinner r = macroWinner (final_state r)
  /\ finalWinner r <> None.
Proof.
  intros Hp Hf HX HO Hx Ho Hne. cbv zeta.
  unfold submitFinalRpsChoice. rewrite Hp, Hf, Hx, Ho.
  destruct (compareRps x o) eqn:Ec; [| |congruence].
  - match goal with
    | |- context [if ?c then _ else _] => replace c with true
    end.
    + simpl. repeat split. discriminate.
    + symmetry. apply Z.leb_le. simpl. lia.
  - match goal with
    | |- context [if ?c then _ else _] => replace c with true
    end.
    + simpl. repeat split. discriminate.
    + symmetry. apply Z.leb_le. simpl. lia.
Qed.

(** ** Arming the galaxy tiebreak *)

Lemma submitRpsChoice_armed state player choice r :
  submitRpsChoice state player choice = Returns r ->
  rps_error r = None ->
  allClosed (boards (rps_state r)) = true ->
  macroWinner (rps_state r) = None ->
  pendingRpsBoard (rps_state r) = None ->
  pendingFinalRps (rps_state r) = true
  /\ finalRps (rps_state r) = finalRpsOrFresh state.
Proof.
  intros H. unfold submitRpsChoice in H.
  destruct (pendingRpsBoard state) as [i|] eqn:Ep.
  2:{ injection H as <-. simpl. discriminate. }
  rewrite andb_false_r in H. simpl in H.
  submit_cases H; simpl; intros _ Hc Hm Hp;
    try discriminate Hp; try (split; reflexivity).
  all: match goal with
       | E : isNull ?m && allClosed ?bs = false |- _ =>
           simpl in E; rewrite Hc, Hm in E; discriminate E
       end.
Qed.

(** C3 fails on the code for [playMove]: a legal move after which every
    board is closed, no macro line is complete and no micro tiebreak is
    pending does not arm the galaxy tiebreak; the call throws at line 170,
    where it assigns the flag to a name it has not declared.  For
    [submitRpsChoice] the claim holds: a successful call whose resulting
    state has every board closed, no macro winner and no micro tiebreak
    pending has set [pendingFinalRps], and [finalRps] is the state's own
    if there was one, else a fresh one with picks empty, score 0-0 and no
    round played. *)
Theorem playMove_throws_where_it_arms :
  (forall state boardIndex cellIndex board,
      legalBoard state boardIndex ->
      boardAt state boardIndex = Some board ->
      nth_error (cells board) cellIndex = Some None ->
      allClosed (replaceBoard (boards state) boardIndex
                   (playMove_updatedBoard state cellIndex board)) = true ->
      determineMacroWinner
        (replaceBoard (boards state) boardIndex
           (playMove_updatedBoard state cellIndex board)) = None ->
      playMove_pendingRpsBoard state boardIndex cellIndex board = None ->
      playMove state boardIndex cellIndex = Throws ReferenceError)
  /\ (forall state player choice r,
      submitRpsChoice state player choice = Returns r ->
      rps_error r = None ->
      allClosed (boards (rps_state r)) = true ->
      macroWinner (rps_state r) = None ->
      pendingRpsBoard (rps_state r) = None ->
      pendingFinalRps (rps_state r) = true
      /\ finalRps (rps_state r)
         = match finalRps state with
           | Some f => Some f
           | None => Some (mkFinalRpsState noPicks None (mkPlayerMap 0 0)%Z 0%Z)
           end).
Proof.
  split.
  - intros state b c board Hl Hb Hc _ _ _.
    apply playMove_legal_throws; [exact Hl|]. now exists board.
  - intros state p ch r H He Hc Hm Hp.
    now apply (submitRpsChoice_armed state p ch r).
Qed.

Lemma playMove_throws_where_it_arms_witness :
  playMove lastMoveMatch 8 2 = Throws ReferenceError
  /\ (pendingFinalRps (rps_state armingThrowResult) = true
      /\ finalRps (rps_state armingThrowResult)
         = match finalRps (after lastThrowMatch [MicroThrow X rock]) with
           | Some f => Some f
           | None => Some (mkFinalRpsState noPicks None (mkPlayerMap 0 0)%Z 0%Z)
           end).
Proof.
  split.
  - apply (proj1 playMove_throws_where_it_arms lastMoveMatch 8 2
             lastOpenBoard).
    + repeat split; try (vm_compute; reflexivity).
      * eexists. split; reflexivity.
      * vm_compute. now left.
    + reflexivity.
    + reflexivity.
    + vm_compute. reflexivity.
    + vm_compute. reflexivity.
    + vm_compute. reflexivity.
  - apply (proj2 playMove_throws_where_it_arms
             (after lastThrowMatch [MicroThrow X rock]) O scissors
             armingThrowResult).
    all: vm_compute; reflexivity.
Defined.

(** ** Legal moves *)

Lemma In_emptyCells cs c :
  In c (emptyCells cs) <-> nth_error cs c = Some None.
Proof.
  unfold emptyCells. rewrite in_map_iff. split.
  - intros [[x j] [Hj Hin]]. simpl in Hj. subst j.
    apply filter_In in Hin. destruct Hin as [Hin Hx]. simpl in Hx.
    apply In_indexed in Hin. destruct x; [discriminate|exact Hin].
  - intros H. exists (None, c). split; [reflexivity|].
    apply filter_In. split; [now apply In_indexed|reflexivity].
Qed.

Lemma movesIn_spec bs : forall allowed moves,
  movesIn bs allowed = Returns moves ->
  forall m, In m moves <->
            In (board m) allowed
            /\ exists b, nth_error bs (board m) = Some b
                         /\ nth_error (cells b) (cell m) = Some None.
Proof.
  induction allowed as [|i rest IH]; intros moves H m; simpl in H.
  - injection H as <-. simpl. tauto.
  - destruct (nth_error bs i) as [b|] eqn:Eb; [|discriminate].
    destruct (movesIn bs rest) as [ms|e] eqn:Er; [|discriminate].
    simpl in H. injection H as <-.
    rewrite in_app_iff, in_map_iff, (IH ms eq_refl m). simpl. split.
    + intros [[c [<- Hc]]|[Hin Hb]].
      * simpl. split; [now left|]. exists b. split; [exact Eb|].
        now apply In_emptyCells.
      * split; [now right|exact Hb].
    + intros [[Hi|Hin] [b' [Hb' Hc]]].
      * left. exists (cell m). subst i. rewrite Eb in Hb'.
        injection Hb' as <-.
        split; [now destruct m|now apply In_emptyCells].
      * right. split; [exact Hin|]. now exists b'.
Qed.

Lemma availableMoves_In state moves m :
  availableMoves state = Returns moves ->
  (In m moves <->
   legalBoard state (board m) /\ emptyCellAt state (board m) (cell m)).
Proof.
  unfold availableMoves. intros H.
  destruct (getAllowedBoards state) as [allowed|e] eqn:Ea; [|discriminate].
  simpl in H. rewrite (movesIn_spec _ _ _ H m).
  now rewrite (getAllowedBoards_spec _ _ (board m) Ea).
Qed.

(** C4, as stated, fails: [availableMoves] does not look at [macroWinner].
    In this state X has completed a macro line, no tiebreak is pending,
    and the call still lists moves. *)
Lemma moves_remain_after_macro_win :
  macroWinner macroWonMatch = Some X
  /\ determineMacroWinner (boards macroWonMatch) = Some X
  /\ pendingRpsBoard macroWonMatch = None
  /\ pendingFinalRps macroWonMatch = false
  /\ exists rest,
      availableMoves macroWonMatch = Returns (mkMove 1 0 :: rest).
Proof.
  repeat split; try (vm_compute; reflexivity).
  eexists. vm_compute. reflexivity.
Qed.

(** C4, amended: the moves [availableMoves] returns are exactly the empty
    cells of the currently legal boards, whatever [macroWinner] is; the
    result is empty exactly when a micro or the galaxy tiebreak is pending
    or no legal board has an empty cell. *)
Theorem availableMoves_spec (state : GameState) (moves : list Move) :
  availableMoves state = Returns moves ->
  (forall m, In m moves <->
             legalBoard state (board m)
             /\ emptyCellAt state (board m) (cell m))
  /\ (moves = [] <->
      pendingRpsBoard state <> None
      \/ pendingFinalRps state = true
      \/ forall i c, legalBoard state i -> ~ emptyCellAt state i c)
  /\ (forall w,
       availableMoves
         (mkGame (boards state) w (currentPlayer state) (nextBoard state)
                 (pendingRpsBoard state) (pendingFinalRps state)
                 (finalRps state) (names state) (bots state))
       = Returns moves).
Proof.
  intros H. split; [|split].
  - intros m. now apply availableMoves_In.
  - split.
    + intros ->. right. right. intros i c Hl He.
      apply (proj2 (availableMoves_In state [] (mkMove i c) H)).
      now split.
    + intros Hno. destruct moves as [|m rest]; [reflexivity|exfalso].
      destruct (proj1 (availableMoves_In state _ m H) (or_introl eq_refl))
        as [Hl He].
      destruct Hno as [Hp|[Hf|Hnone]].
      * destruct Hl as [Hp' _]. contradiction.
      * destruct Hl as [_ [Hf' _]]. congruence.
      * exact (Hnone _ _ Hl He).
  - intros w. exact H.
Qed.

Lemma availableMoves_spec_witness :
  (forall m, In m (map (mkMove 4) [1; 2; 3; 5; 6; 7; 8]) <->
             legalBoard sentMatch (board m)
             /\ emptyCellAt sentMatch (board m) (cell m))
  /\ (map (mkMove 4) [1; 2; 3; 5; 6; 7; 8] = [] <->
      pendingRpsBoard sentMatch <> None
      \/ pendingFinalRps sentMatch = true
      \/ forall i c, legalBoard sentMatch i -> ~ emptyCellAt sentMatch i c)
  /\ (forall w,
       availableMoves
         (mkGame (boards sentMatch) w (currentPlayer sentMatch)
                 (nextBoard sentMatch) (pendingRpsBoard sentMatch)
                 (pendingFinalRps sentMatch) (finalRps sentMatch)
                 (names sentMatch) (bots sentMatch))
       = Returns (map (mkMove 4) [1; 2; 3; 5; 6; 7; 8])).
Proof.
  apply (availableMoves_spec sentMatch (map (mkMove 4) [1; 2; 3; 5; 6; 7; 8])).
  vm_compute. reflexivity.
Defined.

(** ** Well-formed states *)

Lemma wellFormed_spec state :
  wellFormed state = true <->
  List.length (boards state) = 9
  /\ (forall b, In b (boards state) -> List.length (cells b) = 9)
  /\ (forall nb, nextBoard state = Some nb -> nb < 9)
  /\ (forall i, pendingRpsBoard state = Some i -> i < 9).
Proof.
  unfold wellFormed, indexBelow.
  rewrite !andb_true_iff, Nat.eqb_eq, forallb_forall.
  split.
  - intros [[[Hl Hc] Hn] Hp]. repeat split; auto.
    + intros b Hb. apply Nat.eqb_eq. now apply Hc.
    + intros nb E. rewrite E in Hn. now apply Nat.ltb_lt.
    + intros i E. rewrite E in Hp. now apply Nat.ltb_lt.
  - intros [Hl [Hc [Hn Hp]]]. repeat split; auto.
    + intros b Hb. apply Nat.eqb_eq. now apply Hc.
    + destruct (nextBoard state); [apply Nat.ltb_lt; auto|reflexivity].
    + destruct (pendingRpsBoard state); [apply Nat.ltb_lt; auto|reflexivity].
Qed.

Lemma In_replaceBoard bs i u b :
  In b (replaceBoard bs i u) -> b = u \/ In b bs.
Proof.
  intros H. apply In_nth_error in H. destruct H as [j Hj].
  rewrite nth_error_replaceBoard in Hj.
  destruct (nth_error bs j) as [b0|] eqn:E; simpl in Hj; [|discriminate].
  injection Hj as <-. destruct (j =? i); [now left|right].
  eapply nth_error_In; eassumption.
Qed.

Lemma getAllowedBoards_returns state :
  wellFormed state = true -> returns (getAllowedBoards state).
Proof.
  intros Hwf. apply wellFormed_spec in Hwf. destruct Hwf as [Hl [_ [Hn _]]].
  unfold getAllowedBoards, returns.
  destruct (notNull (pendingRpsBoard state) || pendingFinalRps state);
    [eauto|].
  destruct (nextBoard state) as [nb|] eqn:En; [|eauto].
  destruct (nth_error (boards state) nb) as [target|] eqn:Et.
  - destruct (isNull (winner target)); eauto.
  - apply nth_error_None in Et. specialize (Hn nb eq_refl). lia.
Qed.

(** On a well-formed state [playMove] throws no [TypeError]: it turns the
    move down or throws the [ReferenceError]. *)
Lemma playMove_cases state boardIndex cellIndex :
  wellFormed state = true ->
  (exists msg,
      playMove state boardIndex cellIndex
      = Returns (mkPlayResult state (Some msg)))
  \/ playMove state boardIndex cellIndex = Throws ReferenceError.
Proof.
  intros Hwf. unfold playMove.
  destruct (notNull (pendingRpsBoard state)); [left; eauto|].
  destruct (getAllowedBoards_returns state Hwf) as [allowed Ha].
  rewrite Ha. simpl.
  destruct (includes allowed boardIndex) eqn:Ei; simpl; [|left; eauto].
  apply includes_In in Ei.
  destruct (getAllowedBoards_In _ _ _ Ha Ei) as [_ [_ [b [Hb Hw]]]].
  rewrite Hb, Hw. simpl.
  destruct (nth_error (cells b) cellIndex) as [[p|]|]; [left; eauto| |left; eauto].
  right. apply playMove_commit_throws.
Qed.

Lemma submitRpsChoice_returns state player choice :
  wellFormed state = true -> returns (submitRpsChoice state player choice).
Proof.
  intros Hwf. apply wellFormed_spec in Hwf. destruct Hwf as [Hl [_ [_ Hp]]].
  unfold submitRpsChoice, returns.
  destruct (pendingRpsBoard state) as [i|] eqn:Ep; [|eauto].
  destruct (nth_error (boards state) i) as [b|] eqn:Eb.
  - repeat match goal with
           | |- context [match ?x with _ => _ end] => destruct x
           end; eauto.
  - apply nth_error_None in Eb. specialize (Hp i eq_refl). lia.
Qed.

Lemma submitRpsChoice_wellFormed state player choice r :
  wellFormed state = true ->
  submitRpsChoice state player choice = Returns r ->
  wellFormed (rps_state r) = true.
Proof.
  intros Hwf H. pose proof Hwf as Hwf0. apply wellFormed_spec in Hwf.
  destruct Hwf as [Hl [Hcs [Hn Hp]]].
  unfold submitRpsChoice in H.
  destruct (pendingRpsBoard state) as [i|] eqn:Ep.
  2:{ injection H as <-. exact Hwf0. }
  destruct (nth_error (boards state) i) as [b|] eqn:Eb; [|discriminate].
  assert (Hlen : List.length (cells b) = 9).
  { apply Hcs. eapply nth_error_In; eassumption. }
  submit_cases H; apply wellFormed_spec; simpl; repeat split;
    try (now rewrite length_replaceBoard);
    try exact Hn; try discriminate;
    try (intros j E; injection E as <-; now apply Hp);
    intros b' Hin; apply In_replaceBoard in Hin;
    (destruct Hin as [->|Hin]; [exact Hlen|now apply Hcs]).
Qed.

Lemma submitFinalRpsChoice_wellFormed state player choice :
  wellFormed state = true ->
  wellFormed (final_state (submitFinalRpsChoice state player choice)) = true.
Proof.
  intros Hwf. unfold submitFinalRpsChoice.
  repeat match goal with
         | |- context [match ?x with _ => _ end] => destruct x
         end; exact Hwf.
Qed.

Lemma perform_wellFormed state a next :
  wellFormed state = true ->
  perform state a = Returns next ->
  wellFormed next = true.
Proof.
  intros Hwf H. destruct a as [b c|p ch|p ch].
  - apply perform_Play_unchanged in H. now subst.
  - simpl in H.
    destruct (submitRpsChoice state p ch) as [r|e] eqn:E; [|discriminate].
    simpl in H. injection H as <-.
    eapply submitRpsChoice_wellFormed; eassumption.
  - simpl in H. injection H as <-. now apply submitFinalRpsChoice_wellFormed.
Qed.

Lemma run_wellFormed script : forall state next,
  wellFormed state = true ->
  run state script = Returns next ->
  wellFormed next = true.
Proof.
  induction script as [|a rest IH]; intros state next Hwf H; simpl in H.
  - now injection H as <-.
  - destruct (perform state a) as [mid|e] eqn:E; [|discriminate].
    simpl in H. eapply IH; [|exact H].
    eapply perform_wellFormed; eassumption.
Qed.

(** ** Consistent states *)

Lemma submitRpsChoice_inv state player choice r :
  submitRpsChoice state player choice = Returns r ->
  submitRps_outcome state player choice r.
Proof.
  intros H. unfold submitRpsChoice in H.
  destruct (pendingRpsBoard state) as [i|] eqn:Ep.
  2:{ injection H as <-. now constructor. }
  destruct (nth_error (boards state) i) as [b|] eqn:Eb; [|discriminate].
  cbv zeta in H. simpl in H.
  rewrite !andb_false_r in H. simpl in H.
  assert (Ho : forall p : Player, match p with X => O | O => X end = other p)
    by (now intros []).
  rewrite !Ho in H.
  destruct (atX _) as [x|] eqn:Ex in H;
    [destruct (atO _) as [o|] eqn:Eo in H|].
  - destruct (compareRps x o) eqn:Ec.
    + destruct (isNull _ && allClosed _) eqn:Earm in H; injection H as <-.
      * eapply (@rps_decided state player choice i b _ X _ true);
          eauto.
      * eapply (@rps_decided state player choice i b _ X _ false);
          eauto.
    + destruct (isNull _ && allClosed _) eqn:Earm in H; injection H as <-.
      * eapply (@rps_decided state player choice i b _ O _ true);
          eauto.
      * eapply (@rps_decided state player choice i b _ O _ false);
          eauto.
    + injection H as <-. eapply rps_open; eauto.
  - injection H as <-. eapply rps_open; eauto.
  - injection H as <-. eapply rps_open; eauto.
Qed.

Lemma map_replaceBoard (A : Type) (f : MicroBoardState -> A) bs i b u :
  nth_error bs i = Some b ->
  f u = f b ->
  map f (replaceBoard bs i u) = map f bs.
Proof.
  intros Hb Hf. apply nth_error_ext. intros j.
  rewrite !nth_error_map, nth_error_replaceBoard.
  destruct (nth_error bs j) as [bj|] eqn:Ej; simpl; [|reflexivity].
  destruct (j =? i) eqn:E; [|reflexivity].
  apply Nat.eqb_eq in E. subst j. congruence.
Qed.

Lemma allClosed_map bs :
  allClosed bs = forallb (@notNull BoardWinner) (map winner bs).
Proof.
  unfold allClosed. induction bs as [|b bs IH]; simpl; [reflexivity|].
  now rewrite IH.
Qed.

Lemma same_winners_replaceBoard bs i b u :
  nth_error bs i = Some b ->
  winner u = winner b ->
  determineMacroWinner (replaceBoard bs i u) = determineMacroWinner bs
  /\ allClosed (replaceBoard bs i u) = allClosed bs.
Proof.
  intros Hb Hw. split.
  - unfold determineMacroWinner.
    rewrite (map_replaceBoard _ macroCell bs i b u Hb); [reflexivity|].
    unfold macroCell. now rewrite Hw.
  - rewrite !allClosed_map.
    now rewrite (map_replaceBoard _ winner bs i b u Hb Hw).
Qed.

Lemma boardAt_replaced state bs' i b u j :
  nth_error (boards state) i = Some b ->
  bs' = replaceBoard (boards state) i u ->
  nth_error bs' j = if j =? i then Some u else nth_error (boards state) j.
Proof.
  intros Hb ->. rewrite nth_error_replaceBoard.
  destruct (j =? i) eqn:E.
  - apply Nat.eqb_eq in E. subst j. now rewrite Hb.
  - now destruct (nth_error (boards state) j).
Qed.

Lemma finalRpsOrFresh_sound state f :
  (forall f0, finalRps state = Some f0 -> finalRpsSound f0) ->
  finalRpsOrFresh state = Some f ->
  finalRpsSound f.
Proof.
  intros Hold H. unfold finalRpsOrFresh in H.
  destruct (finalRps state) as [f0|] eqn:E; injection H as <-.
  - now apply Hold.
  - unfold finalRpsSound. simpl. lia.
Qed.

Lemma finalRpsOrFresh_set state : finalRpsOrFresh state <> None.
Proof. unfold finalRpsOrFresh. destruct (finalRps state); discriminate. Qed.

Lemma submitRpsChoice_consistent state player choice r :
  consistent state ->
  submitRpsChoice state player choice = Returns r ->
  consistent (rps_state r).
Proof.
  intros C H. apply submitRpsChoice_inv in H.
  destruct H as [Hp|i b u Hp Hb Hcu Hwu|i b u w d armed Hp Hb Hcu Hwu Harm];
    simpl; [exact C| |].
  - destruct (same_winners_replaceBoard _ i b u Hb Hwu) as [Hd Hc].
    assert (Hat : forall j, nth_error (replaceBoard (boards state) i u) j
                            = if j =? i then Some u
                              else nth_error (boards state) j).
    { intros j. now apply (boardAt_replaced state _ i b u j Hb). }
    constructor; unfold boardAt; simpl.
    + intros j bj Hj. rewrite Hat in Hj. destruct (j =? i) eqn:Ej.
      * injection Hj as <-. pose proof (boards_sound _ C i b Hb) as S.
        unfold boardSound in *. now rewrite Hwu, Hcu.
      * now apply (boards_sound _ C j).
    + intros j bj Hj. rewrite Hat in Hj. destruct (j =? i) eqn:Ej.
      * apply Nat.eqb_eq in Ej. subst j. injection Hj as <-.
        pose proof (cat_is_pending _ C i b Hb) as K.
        rewrite Hp in K. now rewrite Hwu.
      * pose proof (cat_is_pending _ C j bj Hj) as K.
        now rewrite Hp in K.
    + rewrite Hd. apply (line_is_winner _ C).
    + rewrite Hd, Hc. apply (winner_has_line _ C).
    + intros Ht. destruct (galaxy_pending _ C Ht) as [_ [_ [Hn _]]]. congruence.
    + discriminate.
    + apply (final_sound _ C).
  - set (bs := replaceBoard (boards state) i u) in *.
    assert (Hat : forall j, nth_error bs j
                            = if j =? i then Some u
                              else nth_error (boards state) j).
    { intros j. now apply (boardAt_replaced state _ i b u j Hb). }
    assert (Hfalse : pendingFinalRps state = false).
    { destruct (pendingFinalRps state) eqn:E; [|reflexivity].
      destruct (galaxy_pending _ C E) as [_ [_ [Hn _]]]. congruence. }
    assert (Hcat : winner b = Some CAT).
    { now apply (cat_is_pending _ C i b Hb). }
    constructor; unfold boardAt; simpl.
    + intros j bj Hj. rewrite Hat in Hj. destruct (j =? i) eqn:Ej.
      * injection Hj as <-. pose proof (boards_sound _ C i b Hb) as S.
        unfold boardSound in *. rewrite Hwu, Hcu. rewrite Hcat in S.
        now right.
      * now apply (boards_sound _ C j).
    + intros j bj Hj. rewrite Hat in Hj. destruct (j =? i) eqn:Ej.
      * injection Hj as <-. rewrite Hwu. split; discriminate.
      * apply Nat.eqb_neq in Ej. split; [|discriminate].
        intros Hc. apply (cat_is_pending _ C j bj Hj) in Hc. congruence.
    + auto.
    + intros w0 H. now left.
    + rewrite Hfalse. intros Ht. destruct armed; [|discriminate].
      symmetry in Harm. apply andb_prop in Harm. destruct Harm as [Hd Hc].
      apply isNull_true in Hd.
      repeat split; auto. apply finalRpsOrFresh_set.
    + intros Hc _ Hm. rewrite Harm, Hc, Hm. reflexivity.
    + intros f Hf. destruct armed.
      * eapply finalRpsOrFresh_sound; [|exact Hf]. apply (final_sound _ C).
      * now apply (final_sound _ C).
Qed.

(** A call of [submitFinalRpsChoice], field by field. *)
Lemma submitFinalRpsChoice_shape state player choice :
  let r := submitFinalRpsChoice state player choice in
  (r = mkFinalResult state (Some "No final RPSLS pending.") None
   /\ (pendingFinalRps state = false \/ finalRps state = None))
  \/ (pendingFinalRps state = true
      /\ final_error r = None
      /\ boards (final_state r) = boards state
      /\ pendingRpsBoard (final_state r) = pendingRpsBoard state
      /\ currentPlayer (final_state r) = other player
      /\ exists f f',
          finalRps state = Some f
          /\ finalRps (final_state r) = Some f'
          /\ ((score f' = score f
               /\ rounds f' = rounds f
               /\ macroWinner (final_state r) = macroWinner state
               /\ pendingFinalRps (final_state r) = true
               /\ finalWinner r = None)
              \/ exists w,
                  score f' = set (score f) w (get (score f) w + 1)%Z
                  /\ rounds f' = (rounds f + 1)%Z
                  /\ finalLastOutcome f' = Some (won w)
                  /\ finalPicks f' = noPicks
                  /\ ((macroWinner (final_state r) = Some w
                       /\ pendingFinalRps (final_state r) = false
                       /\ finalWinner r = Some w)
                      \/ ((get (score f) w < 0)%Z
                          /\ macroWinner (final_state r) = macroWinner state
                          /\ pendingFinalRps (final_state r) = true
                          /\ finalWinner r = None)))).
Proof.
  cbv zeta. unfold submitFinalRpsChoice.
  destruct (pendingFinalRps state) eqn:Ef; [|left; split; auto].
  destruct (finalRps state) as [f|] eqn:Efr; [|left; split; auto].
  right. split; [reflexivity|].
  assert (Ho : match player with X => O | O => X end = other player)
    by now destruct player.
  rewrite Ho.
  destruct (atX _) as [x|]; [destruct (atO _) as [o|]|].
  - destruct (compareRps x o) eqn:Ec.
    + destruct (2 <=? _)%Z eqn:Ez; simpl;
        repeat (split; [reflexivity|]);
        eexists; eexists; (split; [reflexivity|]); (split; [reflexivity|]);
        right; exists X; simpl; repeat (split; [reflexivity|]).
      * left. repeat split.
      * right. apply Z.leb_gt in Ez. simpl in Ez. repeat split; auto. lia.
    + destruct (2 <=? _)%Z eqn:Ez; simpl;
        repeat (split; [reflexivity|]);
        eexists; eexists; (split; [reflexivity|]); (split; [reflexivity|]);
        right; exists O; simpl; repeat (split; [reflexivity|]).
      * left. repeat split.
      * right. apply Z.leb_gt in Ez. simpl in Ez. repeat split; auto. lia.
    + simpl. repeat (split; [reflexivity|]).
      eexists; eexists; (split; [reflexivity|]); (split; [reflexivity|]).
      left. repeat split; auto.
  - simpl. repeat (split; [reflexivity|]).
    eexists; eexists; (split; [reflexivity|]); (split; [reflexivity|]).
    left. repeat split; auto.
  - simpl. repeat (split; [reflexivity|]).
    eexists; eexists; (split; [reflexivity|]); (split; [reflexivity|]).
    left. repeat split; auto.
Qed.

Lemma submitFinalRpsChoice_consistent state player choice :
  consistent state ->
  consistent (final_state (submitFinalRpsChoice state player choice)).
Proof.
  intros C.
  destruct (submitFinalRpsChoice_shape state player choice)
    as [[-> _]|[Hf [_ [Hb [Hp [_ [f [f' [Hfr [Hfr' Hcase]]]]]]]]]];
    [exact C|].
  set (next := final_state (submitFinalRpsChoice state player choice)) in *.
  destruct (galaxy_pending _ C Hf) as [Hd [Hc [Hpn [Hm _]]]].
  pose proof (final_sound _ C f Hfr) as [HX [HO Hr]].
  constructor; unfold boardAt; rewrite ?Hb, ?Hp.
  - apply (boards_sound _ C).
  - apply (cat_is_pending _ C).
  - intros w H. congruence.
  - intros w H. right. split; [exact Hd|]. split; [exact Hc|].
    rewrite Hfr'. simpl.
    destruct Hcase as [[_ [_ [Hm' _]]]|[w0 [_ [_ [Hlo [_ Hend]]]]]];
      [congruence|].
    destruct Hend as [[Hm' _]|[_ [Hm' _]]]; congruence.
  - intros Ht. repeat split; auto; [|congruence].
    destruct Hcase as [[_ [_ [Hm' _]]]|[w0 [_ [_ [_ [_ Hend]]]]]];
      [congruence|].
    destruct Hend as [[_ [Hx _]]|[_ [Hm' _]]]; congruence.
  - intros _ _ Hmn.
    destruct Hcase as [[_ [_ [_ [Ht _]]]]|[w0 [_ [_ [_ [_ Hend]]]]]];
      [exact Ht|].
    destruct Hend as [[Hm' _]|[_ [_ [Ht _]]]]; congruence.
  - intros f0 Hf0. rewrite Hfr' in Hf0. injection Hf0 as <-.
    unfold finalRpsSound.
    destruct Hcase as [[Hs [Hr' _]]|[w0 [Hs [Hr' _]]]].
    + rewrite Hs, Hr'. auto.
    + rewrite Hs, Hr'. destruct w0; simpl; lia.
Qed.

Lemma perform_consistent state a next :
  consistent state ->
  perform state a = Returns next ->
  consistent next.
Proof.
  intros C H. destruct a as [bi ci|p ch|p ch].
  - apply perform_Play_unchanged in H. now subst.
  - simpl in H.
    destruct (submitRpsChoice state p ch) as [r|e] eqn:E; [|discriminate].
    simpl in H. injection H as <-.
    eapply submitRpsChoice_consistent; eassumption.
  - simpl in H. injection H as <-. now apply submitFinalRpsChoice_consistent.
Qed.

Lemma createInitialState_consistent : consistent createInitialState.
Proof.
  constructor; simpl; try discriminate.
  - intros j b Hj. unfold boardAt in Hj. apply nth_error_In in Hj.
    simpl in Hj.
    repeat (destruct Hj as [<-|Hj]; [split; reflexivity|]). destruct Hj.
  - intros j b Hj. unfold boardAt in Hj. apply nth_error_In in Hj.
    simpl in Hj.
    repeat (destruct Hj as [<-|Hj]; [split; discriminate|]). destruct Hj.
Qed.

Lemma run_consistent script : forall state final,
  consistent state ->
  run state script = Returns final ->
  consistent final.
Proof.
  induction script as [|a rest IH]; intros state final C H; simpl in H.
  - now injection H as <-.
  - destruct (perform state a) as [next|e] eqn:E; [|discriminate].
    simpl in H. eapply IH; [|exact H].
    eapply perform_consistent; eassumption.
Qed.

Lemma reachable_consistent state : reachable state -> consistent state.
Proof.
  intros [script H].
  eapply run_consistent; [apply createInitialState_consistent|exact H].
Qed.

(** The relations of [consistent], checked on a state given in full. *)
Ltac each_board H :=
  unfold boardAt in H; simpl in H;
  repeat match type of H with
         | nth_error (_ :: _) ?j = Some _ => destruct j; simpl in H
         end;
  match type of H with
  | nth_error [] ?j = Some _ => destruct j; discriminate H
  | _ => injection H as <-
  end.

Ltac consistent_by_computation :=
  constructor;
  [ intros j b H; each_board H; vm_compute;
    first [split; reflexivity | left; reflexivity | right; split; reflexivity]
  | intros j b H; each_board H; vm_compute; split; intros E;
    first [discriminate E | reflexivity]
  | intros w H; vm_compute in H; first [discriminate H | exact H]
  | intros w H; vm_compute in H; first [discriminate H | injection H as <-];
    vm_compute;
    first [left; reflexivity | right; repeat split; reflexivity]
  | intros H; vm_compute in H; first [discriminate H | idtac];
    vm_compute; repeat split; discriminate
  | intros H; vm_compute in H; first [discriminate H | idtac];
    intros Hp Hw; vm_compute in Hp; vm_compute in Hw;
    first [discriminate Hp | discriminate Hw | vm_compute; reflexivity]
  | intros f H; vm_compute in H; first [discriminate H | injection H as <-];
    vm_compute; repeat split; discriminate ].

Lemma drawnMatch_consistent : consistent drawnMatch.
Proof. consistent_by_computation. Qed.

Lemma galaxyMatch_consistent : consistent galaxyMatch.
Proof. consistent_by_computation. Qed.

Lemma macroWonMatch_consistent : consistent macroWonMatch.
Proof. consistent_by_computation. Qed.

(** ** Rejections *)

Lemma closed_not_legal state i : closedAt state i -> ~ legalBoard state i.
Proof.
  intros [b [Hb Hw]] [_ [_ [[b' [Hb' Hw']] _]]]. congruence.
Qed.

Lemma playMove_not_legal state boardIndex cellIndex r :
  pendingRpsBoard state = None ->
  ~ legalBoard state boardIndex ->
  playMove state boardIndex cellIndex = Returns r ->
  r = mkPlayResult state (Some "You cannot play in that board right now.").
Proof.
  intros Hp Hl H. unfold playMove in H. rewrite Hp in H. simpl in H.
  destruct (getAllowedBoards state) as [allowed|e] eqn:Ea; [|discriminate].
  simpl in H. destruct (includes allowed boardIndex) eqn:Ei; simpl in H.
  - exfalso. apply Hl. apply (getAllowedBoards_spec _ _ _ Ea).
    now apply includes_In.
  - now injection H as <-.
Qed.

Lemma playMove_taken state boardIndex cellIndex :
  legalBoard state boardIndex ->
  ~ emptyCellAt state boardIndex cellIndex ->
  playMove state boardIndex cellIndex
  = Returns (mkPlayResult state (Some "That square is already taken.")).
Proof.
  intros Hl He. destruct (legalBoard_allowed _ _ Hl) as [allowed [Ha Hin]].
  destruct Hl as [Hp [Hf [[b [Hb Hw]] Hn]]].
  unfold playMove. rewrite Hp, Ha. simpl.
  apply includes_In in Hin. rewrite Hin. simpl.
  unfold boardAt in Hb. rewrite Hb, Hw. simpl.
  destruct (nth_error (cells b) cellIndex) as [[p|]|] eqn:Ec; try reflexivity.
  exfalso. apply He. now exists b.
Qed.

Lemma playMove_error_unchanged state boardIndex cellIndex r :
  playMove state boardIndex cellIndex = Returns r ->
  match play_error r with
  | Some msg => play_state r = state /\ msg <> ""
  | None => True
  end.
Proof.
  intros H. apply playMove_inv in H. destruct H as [msg [Hmsg ->]]. simpl.
  split; [reflexivity|].
  simpl in Hmsg. intuition (subst; discriminate).
Qed.

Lemma submitRpsChoice_error_unchanged state player choice r :
  submitRpsChoice state player choice = Returns r ->
  match rps_error r with
  | Some msg => rps_state r = state /\ msg <> ""
  | None => True
  end.
Proof.
  intros H. unfold submitRpsChoice in H.
  destruct (pendingRpsBoard state) as [i|] eqn:Ep.
  - submit_cases H; exact I.
  - injection H as <-. simpl. split; [reflexivity|discriminate].
Qed.

Lemma submitFinalRpsChoice_error_unchanged state player choice :
  match final_error (submitFinalRpsChoice state player choice) with
  | Some msg =>
      final_state (submitFinalRpsChoice state player choice) = state
      /\ msg <> ""
  | None => True
  end.
Proof.
  destruct (submitFinalRpsChoice state player choice) as [st err w] eqn:E.
  simpl. unfold submitFinalRpsChoice in E.
  repeat break_match_in E; injection E as <- <- <-; try exact I;
    (split; [reflexivity|discriminate]).
Qed.

Lemma playMove_closed_rejected state boardIndex cellIndex r :
  closedAt state boardIndex ->
  playMove state boardIndex cellIndex = Returns r ->
  play_state r = state /\ play_error r <> None.
Proof. intros _. apply playMove_unchanged. Qed.

(** C5: each precondition failure of a mutating call returns the state it
    was given together with a non-empty reason, and a call that reports an
    error has never changed the state.  No call leaves a state half
    changed: [playMove] returns nothing but rejections, and where the move
    passes the checks it throws; a throw function that returns hands back
    the state it was given or a state that is well formed and consistent
    again, if the state it was given was, and on a well-formed state it
    returns. *)
Theorem rejections_leave_the_state :
  (forall state b c,
      pendingRpsBoard state <> None ->
      playMove state b c
      = Returns (mkPlayResult state (Some "Finish Rock-Paper-Scissors first.")))
  /\ (forall state b c,
      pendingRpsBoard state = None ->
      pendingFinalRps state = true ->
      playMove state b c
      = Returns (mkPlayResult state
                   (Some "You cannot play in that board right now.")))
  /\ (forall state b c r,
      pendingRpsBoard state = None ->
      ~ legalBoard state b ->
      playMove state b c = Returns r ->
      r = mkPlayResult state (Some "You cannot play in that board right now."))
  /\ (forall state b c r,
      closedAt state b ->
      playMove state b c = Returns r ->
      play_state r = state /\ play_error r <> None)
  /\ (forall state b c,
      legalBoard state b ->
      ~ emptyCellAt state b c ->
      playMove state b c
      = Returns (mkPlayResult state (Some "That square is already taken.")))
  /\ (forall state player choice,
      pendingRpsBoard state = None ->
      submitRpsChoice state player choice
      = Returns (mkRpsResult state (Some "No RPS pending.") None))
  /\ (forall state player choice,
      pendingFinalRps state = false \/ finalRps state = None ->
      submitFinalRpsChoice state player choice
      = mkFinalResult state (Some "No final RPSLS pending.") None)
  /\ (forall state b c r,
      playMove state b c = Returns r ->
      match play_error r with
      | Some msg => play_state r = state /\ msg <> ""
      | None => True
      end)
  /\ (forall state player choice r,
      submitRpsChoice state player choice = Returns r ->
      match rps_error r with
      | Some msg => rps_state r = state /\ msg <> ""
      | None => True
      end)
  /\ (forall state player choice,
      match final_error (submitFinalRpsChoice state player choice) with
      | Some msg =>
          final_state (submitFinalRpsChoice state player choice) = state
          /\ msg <> ""
      | None => True
      end)
  /\ (forall state b c r,
      playMove state b c = Returns r ->
      play_state r = state /\ play_error r <> None)
  /\ (forall state b c,
      legalBoard state b ->
      emptyCellAt state b c ->
      playMove state b c = Throws ReferenceError)
  /\ (forall state a next,
      wellFormed state = true ->
      consistent state ->
      perform state a = Returns next ->
      wellFormed next = true /\ consistent next)
  /\ (forall state player choice,
      wellFormed state = true ->
      returns (submitRpsChoice state player choice)).
Proof.
  repeat apply conj.
  - intros state b c Hp. unfold playMove.
    destruct (pendingRpsBoard state); [reflexivity|congruence].
  - intros state b c Hp Hf. unfold playMove, getAllowedBoards.
    rewrite Hp, Hf. reflexivity.
  - exact playMove_not_legal.
  - exact playMove_closed_rejected.
  - exact playMove_taken.
  - intros state p ch Hp. unfold submitRpsChoice. now rewrite Hp.
  - intros state p ch [Hf|Hn]; unfold submitFinalRpsChoice.
    + now rewrite Hf.
    + rewrite Hn. now destruct (pendingFinalRps state).
  - exact playMove_error_unchanged.
  - exact submitRpsChoice_error_unchanged.
  - exact submitFinalRpsChoice_error_unchanged.
  - exact playMove_unchanged.
  - exact playMove_legal_throws.
  - intros state a next Hwf C H. split.
    + eapply perform_wellFormed; eassumption.
    + eapply perform_consistent; eassumption.
  - exact submitRpsChoice_returns.
Qed.

Lemma rejections_leave_the_state_witness :
  playMove drawnMatch 0 0
  = Returns (mkPlayResult drawnMatch
               (Some "Finish Rock-Paper-Scissors first."))
  /\ playMove galaxyMatch 0 0
     = Returns (mkPlayResult galaxyMatch
                  (Some "You cannot play in that board right now."))
  /\ mkPlayResult sentMatch (Some "You cannot play in that board right now.")
     = mkPlayResult sentMatch (Some "You cannot play in that board right now.")
  /\ (play_state
        (mkPlayResult macroWonMatch
           (Some "You cannot play in that board right now."))
      = macroWonMatch
      /\ play_error
           (mkPlayResult macroWonMatch
              (Some "You cannot play in that board right now."))
         <> None)
  /\ playMove sentMatch 4 4
     = Returns (mkPlayResult sentMatch (Some "That square is already taken."))
  /\ submitRpsChoice createInitialState X rock
     = Returns (mkRpsResult createInitialState (Some "No RPS pending.") None)
  /\ submitFinalRpsChoice createInitialState X rock
     = mkFinalResult createInitialState (Some "No final RPSLS pending.") None
  /\ playMove createInitialState 4 4 = Throws ReferenceError
  /\ (wellFormed (after drawnMatch [MicroThrow X spock]) = true
      /\ consistent (after drawnMatch [MicroThrow X spock]))
  /\ returns (submitRpsChoice drawnMatch O rock).
Proof.
  destruct rejections_leave_the_state
    as (H1 & H2 & H3 & H4 & H5 & H6 & H7 & _ & _ & _ & _ & H12 & H13 & H14).
  repeat apply conj.
  - apply H1. vm_compute. discriminate.
  - apply H2; vm_compute; reflexivity.
  - apply (H3 sentMatch 0 0).
    + vm_compute. reflexivity.
    + intros (_ & _ & _ & Hn). vm_compute in Hn.
      destruct Hn as [Hn|[b [Hb Hw]]]; [discriminate Hn|].
      injection Hb as <-. now apply Hw.
    + vm_compute. reflexivity.
  - apply (H4 macroWonMatch 2 0
              (mkPlayResult macroWonMatch
                 (Some "You cannot play in that board right now."))).
    + eexists. split; [vm_compute; reflexivity|]. simpl. discriminate.
    + vm_compute. reflexivity.
  - apply (H4 macroWonMatch 2 0
              (mkPlayResult macroWonMatch
                 (Some "You cannot play in that board right now."))).
    + eexists. split; [vm_compute; reflexivity|]. simpl. discriminate.
    + vm_compute. reflexivity.
  - apply H5.
    + repeat split; try (vm_compute; reflexivity).
      * eexists. split; [vm_compute; reflexivity|reflexivity].
      * vm_compute. now left.
    + intros [b [Hb Hc]]. vm_compute in Hb. injection Hb as <-.
      vm_compute in Hc. discriminate Hc.
  - apply H6. reflexivity.
  - apply H7. now left.
  - apply H12.
    + repeat split; try (vm_compute; reflexivity).
      eexists. split; [vm_compute; reflexivity|reflexivity].
    + eexists. split; vm_compute; reflexivity.
  - apply (H13 drawnMatch (MicroThrow X spock)).
    + reflexivity.
    + exact drawnMatch_consistent.
    + vm_compute. reflexivity.
  - apply (H13 drawnMatch (MicroThrow X spock)).
    + reflexivity.
    + exact drawnMatch_consistent.
    + vm_compute. reflexivity.
  - apply H14. reflexivity.
Defined.

(** ** Closed boards *)

Lemma submitRpsChoice_boards state player choice r :
  submitRpsChoice state player choice = Returns r ->
  boards (rps_state r) = boards state
  \/ exists i b u,
      pendingRpsBoard state = Some i
      /\ nth_error (boards state) i = Some b
      /\ boards (rps_state r) = replaceBoard (boards state) i u
      /\ cells u = cells b
      /\ (winner u = winner b \/ exists w, winner u = Some (by_ w)).
Proof.
  intros H. unfold submitRpsChoice in H.
  destruct (pendingRpsBoard state) as [i|] eqn:Ep.
  2:{ injection H as <-. now left. }
  destruct (nth_error (boards state) i) as [b|] eqn:Eb; [|discriminate].
  right. exists i, b.
  submit_cases H; simpl; eexists;
    (split; [first [exact Ep|reflexivity]|]);
    (split; [first [exact Eb|reflexivity]|]); (split; [reflexivity|]);
    (split; [reflexivity|]); simpl; eauto.
Qed.

Lemma submitFinalRpsChoice_boards state player choice :
  boards (final_state (submitFinalRpsChoice state player choice))
  = boards state.
Proof.
  unfold submitFinalRpsChoice. repeat break_innermost; reflexivity.
Qed.

Lemma keepsClosed_refl state : keepsClosed state state.
Proof. intros i b Hb Hw. now exists b. Qed.

Lemma keepsClosed_same_boards state next :
  boards next = boards state -> keepsClosed state next.
Proof.
  intros E i b Hb Hw. exists b. unfold boardAt in *. now rewrite E.
Qed.

Lemma perform_keepsClosed state a next :
  perform state a = Returns next -> keepsClosed state next.
Proof.
  intros H. destruct a as [bi ci|p ch|p ch].
  - apply perform_Play_unchanged in H. subst. apply keepsClosed_refl.
  - simpl in H.
    destruct (submitRpsChoice state p ch) as [r|e] eqn:E; [|discriminate].
    simpl in H. injection H as <-.
    apply submitRpsChoice_boards in E.
    destruct E as [E|[k [bk [u [_ [Hk [E [Hc Hw]]]]]]]].
    + now apply keepsClosed_same_boards.
    + intros i b Hi Hwi. unfold boardAt in *.
      rewrite E, nth_error_replaceBoard, Hi. simpl.
      destruct (i =? k) eqn:Ei; [|now exists b].
      apply Nat.eqb_eq in Ei. subst i.
      assert (bk = b) by congruence. subst bk.
      exists u. split; [reflexivity|]. split; [exact Hc|].
      destruct Hw as [->|[w ->]]; [exact Hwi|discriminate].
  - simpl in H. injection H as <-. apply keepsClosed_same_boards.
    apply submitFinalRpsChoice_boards.
Qed.

Lemma run_keepsClosed script : forall state final,
  run state script = Returns final -> keepsClosed state final.
Proof.
  induction script as [|a rest IH]; intros state final H; simpl in H.
  - injection H as <-. apply keepsClosed_refl.
  - destruct (perform state a) as [next|e] eqn:E; [|discriminate].
    simpl in H. intros i b Hb Hw.
    destruct (perform_keepsClosed _ _ _ E i b Hb Hw) as [b1 [H1 [Hc1 Hw1]]].
    destruct (IH _ _ H i b1 H1 Hw1) as [b2 [H2 [Hc2 Hw2]]].
    exists b2. split; [exact H2|]. split; [congruence|exact Hw2].
Qed.

Lemma map_cells_replaceBoard bs i b u :
  nth_error bs i = Some b ->
  cells u = cells b ->
  map cells (replaceBoard bs i u) = map cells bs.
Proof.
  intros Hb Hc. apply nth_error_ext. intros j.
  rewrite !nth_error_map, nth_error_replaceBoard.
  destruct (nth_error bs j) as [bj|] eqn:Ej; simpl; [|reflexivity].
  destruct (j =? i) eqn:E; [|reflexivity].
  apply Nat.eqb_eq in E. subst j. congruence.
Qed.

(** C6: once a board's [winner] is set, no sequence of [playMove],
    [submitRpsChoice] and [submitFinalRpsChoice] calls changes its cells,
    and the board stays closed; [playMove] into a closed board is rejected
    with the state unchanged; [submitRpsChoice] changes no cell of any
    board. *)
Theorem closed_boards_keep_their_cells :
  (forall state script final i b,
      run state script = Returns final ->
      boardAt state i = Some b ->
      winner b <> None ->
      exists b', boardAt final i = Some b' /\ cells b' = cells b
                 /\ winner b' <> None)
  /\ (forall state i c r,
      closedAt state i ->
      playMove state i c = Returns r ->
      play_state r = state /\ play_error r <> None)
  /\ (forall state player choice r,
      submitRpsChoice state player choice = Returns r ->
      map cells (boards (rps_state r)) = map cells (boards state)).
Proof.
  repeat apply conj.
  - intros state script final i b H. now apply (run_keepsClosed script).
  - exact playMove_closed_rejected.
  - intros state p ch r H. apply submitRpsChoice_boards in H.
    destruct H as [->|[k [bk [u [_ [Hk [-> [Hc _]]]]]]]]; [reflexivity|].
    now apply (map_cells_replaceBoard _ _ bk).
Qed.

Lemma closed_boards_keep_their_cells_witness :
  (exists b',
      boardAt (after drawnMatch
                 [Play 1 0; MicroThrow X spock; MicroThrow O rock;
                  FinalThrow X rock]) 1 = Some b'
      /\ cells b' = cells catBoard
      /\ winner b' <> None)
  /\ (play_state
        (mkPlayResult macroWonMatch
           (Some "You cannot play in that board right now."))
      = macroWonMatch
      /\ play_error
           (mkPlayResult macroWonMatch
              (Some "You cannot play in that board right now."))
         <> None)
  /\ map cells (boards (rps_state (mkRpsResult afterSpock None None)))
     = map cells (boards drawnMatch).
Proof.
  destruct closed_boards_keep_their_cells as (H1 & H2 & H3).
  repeat apply conj.
  - apply (H1 drawnMatch
              [Play 1 0; MicroThrow X spock; MicroThrow O rock;
               FinalThrow X rock]).
    + vm_compute. reflexivity.
    + vm_compute. reflexivity.
    + vm_compute. discriminate.
  - apply (H2 macroWonMatch 2 0).
    + eexists. split; [vm_compute; reflexivity|]. simpl. discriminate.
    + vm_compute. reflexivity.
  - apply (H2 macroWonMatch 2 0).
    + eexists. split; [vm_compute; reflexivity|]. simpl. discriminate.
    + vm_compute. reflexivity.
  - apply (H3 drawnMatch X spock). vm_compute. reflexivity.
Defined.

(** ** Rounds of the micro tiebreak *)

Lemma PlayerMap_eta (A : Type) (m : PlayerMap A) (x o : A) :
  atX m = x -> atO m = o -> m = mkPlayerMap x o.
Proof. destruct m; simpl; now intros -> ->. Qed.

Lemma nth_error_replaceBoard_same bs i b u :
  nth_error bs i = Some b -> nth_error (replaceBoard bs i u) i = Some u.
Proof.
  intros H. now rewrite nth_error_replaceBoard, H, Nat.eqb_refl.
Qed.

(** C7, as stated, fails: a decisive round does not empty [picks].  After
    X's spock, O's scissors settle board 1 for X, and the board's [rps]
    still holds both throws. *)
Lemma decisive_round_keeps_picks :
  pendingRpsBoard afterSpock = Some 1
  /\ option_map picks (rpsAt afterSpock 1)
     = Some (mkPlayerMap (Some spock) None)
  /\ exists r,
      submitRpsChoice afterSpock O scissors = Returns r
      /\ rps_error r = None
      /\ option_map resolved_winner (resolvedRps r) = Some X
      /\ option_map picks (rpsAt (rps_state r) 1)
         = Some (mkPlayerMap (Some spock) (Some scissors))
      /\ option_map picks (rpsAt (rps_state r) 1) <> Some noPicks.
Proof.
  split; [|split].
  - vm_compute. reflexivity.
  - vm_compute. reflexivity.
  - eexists. split; [vm_compute; reflexivity|].
    repeat split; try (vm_compute; reflexivity).
    vm_compute. discriminate.
Qed.

(** C7, amended: when a call of [submitRpsChoice] completes a round, a tie
    empties [picks], records the tie as [lastOutcome], hands the turn to
    the opponent of the submitting player and changes nothing else, the
    same board staying pending; a decisive round keeps both throws in
    [picks], with the winner as [lastOutcome] and as the board's winner,
    and clears [pendingRpsBoard]. *)
Theorem micro_round_completed
  (state : GameState) (player : Player) (choice : RpsChoice) (r : RpsResult)
  (i : nat) (b : MicroBoardState) (x o : RpsChoice) :
  pendingRpsBoard state = Some i ->
  boardAt state i = Some b ->
  atX (thrownPicks b player choice) = Some x ->
  atO (thrownPicks b player choice) = Some o ->
  submitRpsChoice state player choice = Returns r ->
  rps_error r = None
  /\ match compareRps x o with
     | is_tie =>
         rps_state r
         = mkGame (replaceBoard (boards state) i
                     (mkBoard (cells b) (winner b)
                              (Some (mkRpsState noPicks (Some tie)))))
                  (macroWinner state) (other player) (nextBoard state)
                  (Some i) (pendingFinalRps state) (finalRps state)
                  (names state) (bots state)
         /\ rpsAt (rps_state r) i = Some (mkRpsState noPicks (Some tie))
         /\ resolvedRps r = None
     | outcome =>
         let w := match outcome with a_wins => X | _ => O end in
         boards (rps_state r)
         = replaceBoard (boards state) i
             (mkBoard (cells b) (Some (by_ w))
                (Some (mkRpsState (mkPlayerMap (Some x) (Some o))
                                  (Some (won w)))))
         /\ rpsAt (rps_state r) i
            = Some (mkRpsState (mkPlayerMap (Some x) (Some o)) (Some (won w)))
         /\ pendingRpsBoard (rps_state r) = None
         /\ option_map resolved_winner (resolvedRps r) = Some w
     end.
Proof.
  intros Hp Hb Hx Ho H. unfold boardAt in Hb. unfold thrownPicks in Hx, Ho.
  pose proof (PlayerMap_eta _ _ _ _ Hx Ho) as Heta.
  unfold submitRpsChoice in H. rewrite Hp, Hb in H.
  cbv zeta in H. rewrite Hx, Ho in H. simpl in H.
  unfold rpsAt, boardAt.
  destruct (compareRps x o) eqn:Ec.
  - cbv zeta.
    destruct (isNull _ && allClosed _) in H; injection H as <-; simpl;
      rewrite (nth_error_replaceBoard_same _ _ b _ Hb), Heta; simpl;
      repeat split; reflexivity.
  - cbv zeta.
    destruct (isNull _ && allClosed _) in H; injection H as <-; simpl;
      rewrite (nth_error_replaceBoard_same _ _ b _ Hb), Heta; simpl;
      repeat split; reflexivity.
  - rewrite andb_false_r in H. simpl in H. injection H as <-. simpl.
    rewrite (nth_error_replaceBoard_same _ _ b _ Hb). simpl.
    destruct player; repeat split; reflexivity.
Qed.

Lemma micro_round_completed_witness :
  rps_error tiedThrowResult = None
  /\ match compareRps spock spock with
     | is_tie =>
         rps_state tiedThrowResult
         = mkGame (replaceBoard (boards afterSpock) 1
                     (mkBoard (cells drawnBoard) (winner drawnBoard)
                              (Some (mkRpsState noPicks (Some tie)))))
                  (macroWinner afterSpock) (other O) (nextBoard afterSpock)
                  (Some 1) (pendingFinalRps afterSpock) (finalRps afterSpock)
                  (names afterSpock) (bots afterSpock)
         /\ rpsAt (rps_state tiedThrowResult) 1
            = Some (mkRpsState noPicks (Some tie))
         /\ resolvedRps tiedThrowResult = None
     | outcome =>
         let w := match outcome with a_wins => X | _ => O end in
         boards (rps_state tiedThrowResult)
         = replaceBoard (boards afterSpock) 1
             (mkBoard (cells drawnBoard) (Some (by_ w))
                (Some (mkRpsState (mkPlayerMap (Some spock) (Some spock))
                                  (Some (won w)))))
         /\ rpsAt (rps_state tiedThrowResult) 1
            = Some (mkRpsState (mkPlayerMap (Some spock) (Some spock))
                               (Some (won w)))
         /\ pendingRpsBoard (rps_state tiedThrowResult) = None
         /\ option_map resolved_winner (resolvedRps tiedThrowResult) = Some w
     end.
Proof.
  apply (micro_round_completed afterSpock O spock tiedThrowResult 1
           drawnBoard spock spock);
    vm_compute; reflexivity.
Defined.

(** ** Whose turn it is after a throw *)

(** C8, as stated, fails: the throw that settles a round does not pass the
    turn.  O answers X's spock with scissors; the call succeeds and
    [currentPlayer] is still O, the submitting player. *)
Lemma decisive_throw_keeps_the_turn :
  pendingRpsBoard afterSpock = Some 1
  /\ currentPlayer afterSpock = O
  /\ exists r,
      submitRpsChoice afterSpock O scissors = Returns r
      /\ rps_error r = None
      /\ resolvedRps r <> None
      /\ currentPlayer (rps_state r) = O
      /\ currentPlayer (rps_state r) <> other O.
Proof.
  split; [|split].
  - vm_compute. reflexivity.
  - vm_compute. reflexivity.
  - eexists. split; [vm_compute; reflexivity|].
    repeat split; try (vm_compute; reflexivity); vm_compute; discriminate.
Qed.

(** C8, amended: a successful [submitRpsChoice] hands the turn to the
    opponent of the submitting player when the round is still incomplete or
    is tied; when the round is decisive (the call reports [resolvedRps]),
    [currentPlayer] keeps the value it had before the call. *)
Theorem micro_throw_turn
  (state : GameState) (player : Player) (choice : RpsChoice) (r : RpsResult) :
  submitRpsChoice state player choice = Returns r ->
  rps_error r = None ->
  exists i b,
    pendingRpsBoard state = Some i
    /\ boardAt state i = Some b
    /\ match atX (thrownPicks b player choice),
             atO (thrownPicks b player choice) with
       | Some x, Some o =>
           match compareRps x o with
           | is_tie =>
               resolvedRps r = None
               /\ currentPlayer (rps_state r) = other player
           | _ =>
               resolvedRps r <> None
               /\ currentPlayer (rps_state r) = currentPlayer state
           end
       | _, _ =>
           resolvedRps r = None
           /\ currentPlayer (rps_state r) = other player
       end.
Proof.
  intros H He. unfold submitRpsChoice in H.
  destruct (pendingRpsBoard state) as [i|] eqn:Ep.
  2:{ injection H as <-. discriminate He. }
  destruct (nth_error (boards state) i) as [b|] eqn:Eb; [|discriminate].
  exists i, b. split; [reflexivity|]. split; [exact Eb|].
  unfold thrownPicks. cbv zeta in H.
  destruct (atX _) as [x|]; [destruct (atO _) as [o|]|].
  - destruct (compareRps x o);
      repeat break_match_in H; injection H as <-; simpl;
      (split; [try discriminate; reflexivity|now destruct player]).
  - repeat break_match_in H; injection H as <-; simpl;
      (split; [reflexivity|now destruct player]).
  - repeat break_match_in H; injection H as <-; simpl;
      (split; [reflexivity|now destruct player]).
Qed.

Lemma micro_throw_turn_witness :
  exists i b,
    pendingRpsBoard afterSpock = Some i
    /\ boardAt afterSpock i = Some b
    /\ match atX (thrownPicks b O spock), atO (thrownPicks b O spock) with
       | Some x, Some o =>
           match compareRps x o with
           | is_tie =>
               resolvedRps tiedThrowResult = None
               /\ currentPlayer (rps_state tiedThrowResult) = other O
           | _ =>
               resolvedRps tiedThrowResult <> None
               /\ currentPlayer (rps_state tiedThrowResult)
                  = currentPlayer afterSpock
           end
       | _, _ =>
           resolvedRps tiedThrowResult = None
           /\ currentPlayer (rps_state tiedThrowResult) = other O
       end.
Proof.
  apply (micro_throw_turn afterSpock O spock tiedThrowResult).
  - vm_compute. reflexivity.
  - reflexivity.
Defined.

(** ** The move selector *)

Lemma fold_left_Throws (A B : Type) (body : B -> A -> js B) xs e :
  fold_left (fun acc x => b <- acc ;; body b x) xs (Throws e) = Throws e.
Proof. induction xs as [|x xs IH]; simpl; auto. Qed.

Lemma for_of_cons (A B : Type) (x : A) xs (init : B) body :
  for_of (x :: xs) init body = (b <- body init x ;; for_of xs b body).
Proof.
  unfold for_of. simpl. destruct (body init x) as [b|e]; simpl; [reflexivity|].
  apply fold_left_Throws.
Qed.

Lemma movesIn_returns bs : forall allowed,
  (forall i, In i allowed -> exists b, nth_error bs i = Some b) ->
  returns (movesIn bs allowed).
Proof.
  induction allowed as [|i rest IH]; intros H; simpl.
  - eexists. reflexivity.
  - destruct (H i (or_introl eq_refl)) as [b Hb]. rewrite Hb.
    destruct IH as [ms Hms]; [intros j Hj; apply H; now right|].
    rewrite Hms. eexists. reflexivity.
Qed.

Lemma availableMoves_returns state :
  wellFormed state = true -> returns (availableMoves state).
Proof.
  intros Hwf. destruct (getAllowedBoards_returns state Hwf) as [allowed Ha].
  unfold availableMoves. rewrite Ha. simpl. apply movesIn_returns.
  intros i Hi. destruct (getAllowedBoards_In _ _ _ Ha Hi) as [_ [_ [b [Hb _]]]].
  now exists b.
Qed.

Lemma availableMoves_nonempty_not_pending state m rest :
  availableMoves state = Returns (m :: rest) ->
  notNull (pendingRpsBoard state) = false.
Proof.
  intros H.
  destruct (proj1 (availableMoves_In state _ m H) (or_introl eq_refl))
    as [[Hp _] _].
  now rewrite Hp.
Qed.

Lemma at_floor_In (A : Type) (xs : list A) x a :
  at_floor xs x = Some a -> In a xs.
Proof.
  unfold at_floor.
  destruct (FloatOps.Prim2SF x) as [s|s| |[|] m e]; try discriminate;
    apply nth_error_In.
Qed.

(** The root loop of lines 411-419 stops at its first move: the move is
    one [playMove] lets through its checks. *)
Lemma root_loop_throws state depth m rest :
  availableMoves state = Returns (m :: rest) ->
  for_of (m :: rest) (None, NegInfinity)
    (fun best move =>
       result <- playMove (cloneState state) (board move) (cell move) ;;
       score <- minimax depth (play_state result) false (currentPlayer state) ;;
       if num_gt score (snd best)
       then Returns (Some move, score)
       else Returns best)
  = Throws ReferenceError.
Proof.
  intros Ha. rewrite for_of_cons. unfold cloneState.
  destruct (proj1 (availableMoves_In state _ m Ha) (or_introl eq_refl))
    as [Hl He].
  now rewrite (playMove_legal_throws _ _ _ Hl He).
Qed.

(** C9 fails on the code at the levels that search: whenever the state
    has a move, [chooseAIMove] at [none], [smart] and [hard] tries the
    first move with [playMove] and the call throws, returning neither a
    move nor [null].  At [easy] a move it returns is one of
    [availableMoves(state)], and at every level it returns [null] when
    there is no move. *)
Theorem chooseAIMove_throws_where_it_searches :
  (forall random state level m rest,
      level <> easy ->
      availableMoves state = Returns (m :: rest) ->
      chooseAIMove random state level = Throws ReferenceError)
  /\ (forall random state moves m,
      availableMoves state = Returns moves ->
      chooseAIMove random state easy = Returns (Some m) ->
      In m moves)
  /\ (forall random state level,
      availableMoves state = Returns [] ->
      chooseAIMove random state level = Returns None).
Proof.
  repeat apply conj.
  - intros random state level m rest Hl Ha.
    pose proof (availableMoves_nonempty_not_pending _ _ _ Ha) as Hp.
    unfold chooseAIMove. rewrite Ha. cbn [bind].
    destruct level; [|congruence| |]; rewrite Hp; cbv zeta;
      now rewrite (root_loop_throws state _ m rest Ha).
  - intros random state moves m Ha Hc. unfold chooseAIMove in Hc.
    rewrite Ha in Hc. cbn [bind] in Hc.
    destruct moves as [|m0 rest]; [discriminate|].
    injection Hc as Hc. exact (at_floor_In _ _ _ _ Hc).
  - intros random state level Ha. unfold chooseAIMove. now rewrite Ha.
Qed.

Lemma chooseAIMove_throws_where_it_searches_witness :
  chooseAIMove (Number_of_nat 0) createInitialState smart
  = Throws ReferenceError
  /\ In (mkMove 4 6) (map (mkMove 4) [1; 2; 3; 5; 6; 7; 8])
  /\ chooseAIMove (Number_of_nat 0) galaxyMatch hard = Returns None.
Proof.
  destruct chooseAIMove_throws_where_it_searches as (H1 & H2 & H3).
  repeat apply conj.
  - eapply (H1 (Number_of_nat 0) createInitialState smart).
    + discriminate.
    + vm_compute. reflexivity.
  - apply (H2 (PrimFloat.div (Number_of_nat 3) (Number_of_nat 5)) sentMatch).
    + vm_compute. reflexivity.
    + vm_compute. reflexivity.
  - apply H3. vm_compute. reflexivity.
Defined.

(** ** Persistence *)

Lemma property_assignProp props key k v :
  property key (assignProp props k v)
  = if String.eqb k key then Some v else property key props.
Proof.
  induction props as [|[k0 v0] rest IH]; simpl.
  - reflexivity.
  - destruct (String.eqb k0 k) eqn:E0; simpl.
    + apply String.eqb_eq in E0. subst k0.
      destruct (String.eqb k key); reflexivity.
    + destruct (String.eqb k0 key) eqn:E1; [|exact IH].
      destruct (String.eqb k key) eqn:E2; [|reflexivity].
      apply String.eqb_eq in E1, E2. subst.
      now rewrite String.eqb_refl in E0.
Qed.

Lemma property_app a b key :
  property key (a ++ b)
  = match property key a with
    | Some v => Some v
    | None => property key b
    end.
Proof.
  induction a as [|[k v] rest IH]; simpl; [reflexivity|].
  destruct (String.eqb k key); [reflexivity|exact IH].
Qed.

(** In [{ ...a, ...b }] a key has the value [b] gives it last, or else the
    value it has in [a]. *)
Lemma property_spread b : forall a key,
  property key (spread a b)
  = match property key (rev b) with
    | Some v => Some v
    | None => property key a
    end.
Proof.
  unfold spread. induction b as [|[k v] rest IH]; intros a key; simpl.
  - reflexivity.
  - rewrite IH, property_app, property_assignProp. simpl.
    destruct (property key (rev rest)); [reflexivity|].
    destruct (String.eqb k key); reflexivity.
Qed.

Lemma spread_stateProps state :
  spread (stateProps createInitialState) (stateProps state) = stateProps state.
Proof. reflexivity. Qed.

Lemma parseState_merges parse text props bs :
  text <> "" ->
  parse text = Some (JObject props) ->
  property "boards" props = Some bs ->
  falsy bs = false ->
  lengthIsNot9 bs = false ->
  parseState parse (Some text)
  = JObject (spread (stateProps createInitialState) props).
Proof.
  intros Ht Hp Hb Hf Hl. unfold parseState.
  destruct (String.eqb text "") eqn:E; [apply String.eqb_eq in E; contradiction|].
  now rewrite Hp, Hb, Hf, Hl.
Qed.

(** C10, as stated, fails: an input that lacks required fields is not
    replaced by the initial state.  The text [{"boards":[0,0,0,0,0,0,0,0,0]}]
    has no field but [boards], whose nine entries are not boards;
    [parseState] keeps them and fills in the other fields from
    [createInitialState()]. *)
Lemma parseState_keeps_incomplete_input :
  parseState (readsAs incompleteText incompleteValue) (Some incompleteText)
  <> toJSON createInitialState
  /\ parseState (readsAs incompleteText incompleteValue) (Some incompleteText)
     = JObject (("boards", JArray (repeat (JNumber 0) 9))
                :: tl (stateProps createInitialState)).
Proof.
  split.
  - vm_compute. discriminate.
  - vm_compute. reflexivity.
Qed.

(** C10, amended: for every state with nine boards, parsing its
    serialization gives the state back, if the platform's [JSON.parse]
    reads back what its [JSON.stringify] wrote; [parseState] returns
    [createInitialState()] when the input is absent or empty, is not
    parseable, is not an object, has no [boards], or has a [boards] that
    is falsy or whose [length] is not 9 (for an array: a number of
    elements other than nine); any other object, one whose [boards] is
    truthy with a [length] of 9, is merged over the initial state: a field
    it has is kept as parsed, a field it lacks takes the initial state's
    value. *)
Theorem parseState_contract
  (JSON_stringify : json -> string) (JSON_parse : string -> option json) :
  (forall state,
      List.length (boards state) = 9 ->
      JSON_stringify (toJSON state) <> "" ->
      JSON_parse (JSON_stringify (toJSON state)) = Some (toJSON state) ->
      parseState JSON_parse (Some (serializeState JSON_stringify state))
      = toJSON state)
  /\ parseState JSON_parse None = toJSON createInitialState
  /\ parseState JSON_parse (Some "") = toJSON createInitialState
  /\ (forall text,
      JSON_parse text = None ->
      parseState JSON_parse (Some text) = toJSON createInitialState)
  /\ (forall text parsed,
      JSON_parse text = Some parsed ->
      (forall props, parsed <> JObject props) ->
      parseState JSON_parse (Some text) = toJSON createInitialState)
  /\ (forall text props,
      JSON_parse text = Some (JObject props) ->
      property "boards" props = None ->
      parseState JSON_parse (Some text) = toJSON createInitialState)
  /\ (forall text props bs,
      JSON_parse text = Some (JObject props) ->
      property "boards" props = Some bs ->
      falsy bs = true \/ lengthIsNot9 bs = true ->
      parseState JSON_parse (Some text) = toJSON createInitialState)
  /\ (forall text props bs,
      text <> "" ->
      JSON_parse text = Some (JObject props) ->
      property "boards" props = Some bs ->
      falsy bs = false ->
      lengthIsNot9 bs = false ->
      parseState JSON_parse (Some text)
      = JObject (spread (stateProps createInitialState) props)
      /\ forall key,
          property key (spread (stateProps createInitialState) props)
          = match property key (rev props) with
            | Some v => Some v
            | None => property key (stateProps createInitialState)
            end)
  /\ (forall items,
      falsy (JArray items) = false
      /\ (lengthIsNot9 (JArray items) = false <-> List.length items = 9)).
Proof.
  repeat apply conj.
  - intros state Hl Hne Hrt. unfold serializeState.
    rewrite (parseState_merges JSON_parse _ (stateProps state)
               (JArray (map jsonBoard (boards state))) Hne Hrt).
    + now rewrite spread_stateProps.
    + reflexivity.
    + reflexivity.
    + simpl. now rewrite length_map, Hl.
  - reflexivity.
  - reflexivity.
  - intros text Hp. unfold parseState. rewrite Hp.
    now destruct (String.eqb text "").
  - intros text parsed Hp Hno. unfold parseState. rewrite Hp.
    destruct (String.eqb text ""); [reflexivity|].
    destruct parsed; try reflexivity. now destruct (Hno props).
  - intros text props Hp Hb. unfold parseState. rewrite Hp, Hb.
    now destruct (String.eqb text "").
  - intros text props bs Hp Hb Hbad. unfold parseState. rewrite Hp, Hb.
    destruct (String.eqb text ""); [reflexivity|].
    destruct Hbad as [-> | ->]; [reflexivity|].
    now rewrite orb_true_r.
  - intros text props bs Ht Hp Hb Hf Hl. split.
    + now apply (parseState_merges JSON_parse text props bs).
    + intros key. apply property_spread.
  - intros items. split; [reflexivity|]. simpl. split.
    + intros H. apply negb_false_iff in H. now apply Nat.eqb_eq.
    + intros H. now rewrite H.
Qed.

Lemma parseState_contract_witness :
  parseState (readsAs (JSON_text (toJSON afterSpock)) (toJSON afterSpock))
             (Some (serializeState JSON_text afterSpock))
  = toJSON afterSpock
  /\ parseState (readsAs incompleteText incompleteValue) (Some "nul")
     = toJSON createInitialState
  /\ parseState (readsAs "[1,2]" (JArray [JNumber 1; JNumber 2]))
                (Some "[1,2]")
     = toJSON createInitialState
  /\ parseState (readsAs "{}" (JObject [])) (Some "{}")
     = toJSON createInitialState
  /\ parseState (readsAs nullBoardsText nullBoardsValue) (Some nullBoardsText)
     = toJSON createInitialState
  /\ parseState (readsAs incompleteText incompleteValue) (Some incompleteText)
     = JObject (spread (stateProps createInitialState)
                  [("boards", JArray (repeat (JNumber 0) 9))]).
Proof.
  repeat apply conj.
  - destruct (parseState_contract JSON_text
                (readsAs (JSON_text (toJSON afterSpock)) (toJSON afterSpock)))
      as (H1 & _).
    apply (H1 afterSpock).
    + vm_compute. reflexivity.
    + vm_compute. discriminate.
    + vm_compute. reflexivity.
  - destruct (parseState_contract JSON_text
                (readsAs incompleteText incompleteValue))
      as (_ & _ & _ & H4 & _).
    apply H4. vm_compute. reflexivity.
  - destruct (parseState_contract JSON_text
                (readsAs "[1,2]" (JArray [JNumber 1; JNumber 2])))
      as (_ & _ & _ & _ & H5 & _).
    apply (H5 "[1,2]" (JArray [JNumber 1; JNumber 2])).
    + vm_compute. reflexivity.
    + discriminate.
  - destruct (parseState_contract JSON_text (readsAs "{}" (JObject [])))
      as (_ & _ & _ & _ & _ & H6 & _).
    apply (H6 "{}" []).
    + vm_compute. reflexivity.
    + reflexivity.
  - destruct (parseState_contract JSON_text
                (readsAs nullBoardsText nullBoardsValue))
      as (_ & _ & _ & _ & _ & _ & H7 & _).
    apply (H7 nullBoardsText [("boards", JNull)] JNull).
    + vm_compute. reflexivity.
    + reflexivity.
    + now left.
  - destruct (parseState_contract JSON_text
                (readsAs incompleteText incompleteValue))
      as (_ & _ & _ & _ & _ & _ & _ & H8 & _).
    apply (H8 incompleteText _ (JArray (repeat (JNumber 0) 9))).
    + vm_compute. discriminate.
    + vm_compute. reflexivity.
    + reflexivity.
    + reflexivity.
    + reflexivity.
Defined.

(** * Further properties of the engine *)

(** ** Lines *)

Lemma holds_spec c p : holds c p = true <-> c = Some p.
Proof.
  destruct c as [q|]; simpl; [|split; discriminate].
  destruct p, q; simpl; split; congruence.
Qed.

Lemma detectWinner_from_Some lines cells p :
  detectWinner_from lines cells = Some p ->
  exists line, In line lines /\ lineHeldBy cells p line.
Proof.
  induction lines as [|[[a b] c] rest IH]; simpl; [discriminate|].
  destruct (at_ cells a) as [q|] eqn:Ea.
  - destruct (holds (at_ cells b) q && holds (at_ cells c) q) eqn:Eh.
    + intros H. injection H as ->.
      apply andb_prop in Eh. destruct Eh as [Hb Hc].
      apply holds_spec in Hb, Hc.
      exists (a, b, c). split; [now left|]. simpl. auto.
    + intros H. destruct (IH H) as [line [Hin Hl]].
      exists line. split; [now right|exact Hl].
  - intros H. destruct (IH H) as [line [Hin Hl]].
    exists line. split; [now right|exact Hl].
Qed.

Lemma detectWinner_from_None lines cells :
  detectWinner_from lines cells = None <->
  forall line p, In line lines -> ~ lineHeldBy cells p line.
Proof.
  induction lines as [|[[a b] c] rest IH]; simpl.
  - split; [intros _ line p []|reflexivity].
  - destruct (at_ cells a) as [q|] eqn:Ea.
    + destruct (holds (at_ cells b) q && holds (at_ cells c) q) eqn:Eh.
      * split; [discriminate|]. intros H. exfalso.
        apply andb_prop in Eh. destruct Eh as [Hb Hc].
        apply holds_spec in Hb, Hc.
        apply (H (a, b, c) q); [now left|]. simpl. auto.
      * rewrite IH. split.
        -- intros H line p [<-|Hin]; [|now apply H].
           simpl. intros [Ha [Hb Hc]].
           assert (p = q) by congruence. subst p.
           apply holds_spec in Hb, Hc. rewrite Hb, Hc in Eh. discriminate.
        -- intros H line p Hin. apply H. now right.
    + rewrite IH. split.
      * intros H line p [<-|Hin]; [|now apply H].
        simpl. intros [Ha _]. congruence.
      * intros H line p Hin. apply H. now right.
Qed.

(** X1: [detectWinner] returns a player exactly when one of the eight
    lines is held by one player, and then that player holds such a line;
    it returns [null] exactly when no line is held. *)
Theorem detectWinner_spec (cells : list Cell) :
  (forall p, detectWinner cells = Some p ->
             exists line, In line WIN_LINES /\ lineHeldBy cells p line)
  /\ (detectWinner cells = None <->
      forall line p, In line WIN_LINES -> ~ lineHeldBy cells p line).
Proof.
  split.
  - intros p. apply detectWinner_from_Some.
  - apply detectWinner_from_None.
Qed.

(** ** The RPSLS tables *)

(** X2: the comparison is a tie exactly for equal throws; otherwise
    exactly one of the two throws is in the other's [RPS_RULES] entry and
    that one wins, whichever side it is on; and [RPS_VERBS] has a verb for
    exactly the dominating pairs, so [rpsVerb] never falls back to "beats"
    for a winning throw. *)
Theorem compareRps_spec (a b : RpsChoice) :
  (compareRps a b = is_tie <-> a = b)
  /\ (compareRps a b = a_wins <-> In b (RPS_RULES a))
  /\ (compareRps a b = b_wins <-> In a (RPS_RULES b))
  /\ (compareRps a b = a_wins <-> compareRps b a = b_wins)
  /\ (In b (RPS_RULES a) <-> RPS_VERBS a b <> None)
  /\ (In b (RPS_RULES a) -> rpsVerb a b <> "beats").
Proof.
  destruct a, b; vm_compute;
    repeat split; intros; try discriminate; try reflexivity;
    try tauto; try congruence;
    repeat match goal with
           | H : _ \/ _ |- _ => destruct H
           | H : False |- _ => destruct H
           end; try discriminate; try congruence.
Qed.

(** ** What a move changes *)

Lemma playMove_ReferenceError_inv state boardIndex cellIndex :
  playMove state boardIndex cellIndex = Throws ReferenceError ->
  legalBoard state boardIndex /\ emptyCellAt state boardIndex cellIndex.
Proof.
  unfold playMove. intros H.
  destruct (notNull (pendingRpsBoard state)) eqn:Ep; [discriminate|].
  destruct (getAllowedBoards state) as [allowed|e] eqn:Ea.
  2: { exfalso. unfold getAllowedBoards in Ea.
       repeat (break_match_in Ea; try discriminate Ea).
       injection Ea as <-. simpl in H. discriminate H. }
  simpl in H.
  destruct (includes allowed boardIndex) eqn:Ei; simpl in H; [|discriminate].
  apply includes_In in Ei.
  destruct (nth_error (boards state) boardIndex) as [b|] eqn:Eb;
    [|discriminate].
  destruct (notNull (winner b)); [discriminate|].
  destruct (nth_error (cells b) cellIndex) as [[p|]|] eqn:Ec;
    try discriminate.
  split.
  - now apply (getAllowedBoards_spec state allowed).
  - exists b. now split.
Qed.

(** X3: [playMove] never commits a move.  It throws the
    [ReferenceError] exactly when the board is one the player may play in
    and the cell is empty, that is, exactly on the moves it should accept;
    and whenever it returns, it returns a rejection: the state it was
    given, with an error. *)
Theorem playMove_never_commits
  (state : GameState) (boardIndex cellIndex : nat) :
  (playMove state boardIndex cellIndex = Throws ReferenceError <->
   legalBoard state boardIndex /\ emptyCellAt state boardIndex cellIndex)
  /\ (forall r,
         playMove state boardIndex cellIndex = Returns r ->
         play_state r = state /\ play_error r <> None).
Proof.
  split.
  - split.
    + apply playMove_ReferenceError_inv.
    + intros [Hl He]. now apply playMove_legal_throws.
  - intros r. apply playMove_unchanged.
Qed.

Lemma playMove_never_commits_witness :
  (playMove sentMatch 4 8 = Throws ReferenceError <->
   legalBoard sentMatch 4 /\ emptyCellAt sentMatch 4 8)
  /\ (forall r,
         playMove sentMatch 4 0 = Returns r ->
         play_state r = sentMatch /\ play_error r <> None).
Proof.
  split.
  - apply (playMove_never_commits sentMatch 4 8).
  - apply (playMove_never_commits sentMatch 4 0).
Defined.

(** ** What no run changes *)

Lemma markAt_same_cells state next :
  map cells (boards next) = map cells (boards state) ->
  forall i j, markAt next i j = markAt state i j.
Proof.
  intros E i j. unfold markAt, boardAt.
  assert (H : nth_error (map cells (boards next)) i
              = nth_error (map cells (boards state)) i) by now rewrite E.
  rewrite !nth_error_map in H.
  destruct (nth_error (boards next) i), (nth_error (boards state) i);
    simpl in H; congruence.
Qed.

Lemma perform_keeps_marks state a next i j p :
  perform state a = Returns next ->
  markAt state i j = Some (Some p) ->
  markAt next i j = Some (Some p).
Proof.
  intros H Hm. destruct a as [bi ci|pl ch|pl ch].
  - apply perform_Play_unchanged in H. now subst next.
  - simpl in H.
    destruct (submitRpsChoice state pl ch) as [r|e] eqn:E; [|discriminate].
    simpl in H. injection H as <-.
    rewrite (markAt_same_cells state (rps_state r)); [exact Hm|].
    apply submitRpsChoice_boards in E.
    destruct E as [->|[k [bk [u [_ [Hk [-> [Hc _]]]]]]]]; [reflexivity|].
    now apply (map_cells_replaceBoard _ _ bk).
  - simpl in H. injection H as <-.
    rewrite (markAt_same_cells state); [exact Hm|].
    now rewrite submitFinalRpsChoice_boards.
Qed.

Lemma perform_keeps_names state a next :
  perform state a = Returns next ->
  names next = names state /\ bots next = bots state.
Proof.
  intros H. destruct a as [bi ci|pl ch|pl ch].
  - apply perform_Play_unchanged in H. subst next. split; reflexivity.
  - simpl in H.
    destruct (submitRpsChoice state pl ch) as [r|e] eqn:E; [|discriminate].
    simpl in H. injection H as <-.
    unfold submitRpsChoice in E.
    destruct (pendingRpsBoard state) as [k|];
      [|injection E as <-; split; reflexivity].
    submit_cases E; split; reflexivity.
  - simpl in H. injection H as <-. unfold submitFinalRpsChoice.
    repeat break_innermost; split; reflexivity.
Qed.

(** X4: a mark is never erased or overwritten: a cell that holds a
    player's mark holds the same mark after any sequence of [playMove],
    [submitRpsChoice] and [submitFinalRpsChoice] calls, from any state. *)
Theorem marks_are_permanent
  (state : GameState) (script : list Action) (final : GameState)
  (i j : nat) (p : Player) :
  run state script = Returns final ->
  markAt state i j = Some (Some p) ->
  markAt final i j = Some (Some p).
Proof.
  revert state. induction script as [|a rest IH]; intros state H Hm;
    simpl in H.
  - now injection H as <-.
  - destruct (perform state a) as [next|e] eqn:E; [|discriminate].
    simpl in H. apply (IH next H).
    eapply perform_keeps_marks; eassumption.
Qed.

Lemma marks_are_permanent_witness :
  markAt (after drawnMatch [MicroThrow X spock; MicroThrow O rock]) 1 4
  = Some (Some X).
Proof.
  apply (marks_are_permanent drawnMatch
           [MicroThrow X spock; MicroThrow O rock]
           (after drawnMatch [MicroThrow X spock; MicroThrow O rock]) 1 4 X).
  - vm_compute. reflexivity.
  - vm_compute. reflexivity.
Defined.

(** X5: the engine never touches the players' names or bot levels: after
    any sequence of the three mutating calls they are what they were. *)
Theorem names_and_bots_are_kept
  (state : GameState) (script : list Action) (final : GameState) :
  run state script = Returns final ->
  names final = names state /\ bots final = bots state.
Proof.
  revert state. induction script as [|a rest IH]; intros state H; simpl in H.
  - injection H as <-. split; reflexivity.
  - destruct (perform state a) as [next|e] eqn:E; [|discriminate].
    simpl in H. destruct (IH next H) as [Hn Hb].
    destruct (perform_keeps_names _ _ _ E) as [Hn' Hb']. split; congruence.
Qed.

Lemma names_and_bots_are_kept_witness :
  names (after galaxyMatch [FinalThrow X rock; FinalThrow O scissors])
  = names galaxyMatch
  /\ bots (after galaxyMatch [FinalThrow X rock; FinalThrow O scissors])
     = bots galaxyMatch.
Proof.
  apply (names_and_bots_are_kept galaxyMatch
           [FinalThrow X rock; FinalThrow O scissors]
           (after galaxyMatch [FinalThrow X rock; FinalThrow O scissors])).
  vm_compute. reflexivity.
Defined.

(** ** The fields of a state stay in agreement

    [consistent] says what the fields of a state have to do with each
    other in a match.  The two throw functions keep it, and the only
    returns of [playMove] are rejections, so every state a run of calls
    reaches from a consistent state is consistent. *)


Lemma lastThrowMatch_consistent : consistent lastThrowMatch.
Proof. consistent_by_computation. Qed.

(** X6: a board's [winner] agrees with its cells in every state that a
    sequence of returning calls reaches from a state whose fields agree:
    an open board has no line and still has an empty cell; a drawn board
    ("CAT") is full without a line and is the board whose tiebreak is
    pending; a won board shows its winner's line or is a full board without
    a line that a throw settled, and is not the pending board. *)
Theorem board_winner_agrees_with_cells
  (start state : GameState) (script : list Action) (j : nat)
  (b : MicroBoardState) :
  consistent start ->
  run start script = Returns state ->
  boardAt state j = Some b ->
  match winner b with
  | None =>
      detectWinner (cells b) = None /\ boardIsFull (cells b) = false
  | Some CAT =>
      detectWinner (cells b) = None /\ boardIsFull (cells b) = true
      /\ pendingRpsBoard state = Some j
  | Some (by_ p) =>
      (detectWinner (cells b) = Some p
       \/ (detectWinner (cells b) = None /\ boardIsFull (cells b) = true))
      /\ pendingRpsBoard state <> Some j
  end.
Proof.
  intros C0 Hrun Hb.
  pose proof (run_consistent script start state C0 Hrun) as R.
  pose proof (boards_sound _ R j b Hb) as S.
  pose proof (cat_is_pending _ R j b Hb) as K.
  unfold boardSound in S. destruct (winner b) as [[p|]|].
  - split; [exact S|]. intros E. apply K in E. discriminate.
  - destruct S as [S1 S2]. repeat split; auto. now apply K.
  - exact S.
Qed.

Lemma board_winner_agrees_with_cells_witness :
  match winner drawnBoard with
  | None =>
      detectWinner (cells drawnBoard) = None
      /\ boardIsFull (cells drawnBoard) = false
  | Some CAT =>
      detectWinner (cells drawnBoard) = None
      /\ boardIsFull (cells drawnBoard) = true
      /\ pendingRpsBoard afterSpock = Some 1
  | Some (by_ p) =>
      (detectWinner (cells drawnBoard) = Some p
       \/ (detectWinner (cells drawnBoard) = None
           /\ boardIsFull (cells drawnBoard) = true))
      /\ pendingRpsBoard afterSpock <> Some 1
  end.
Proof.
  apply (board_winner_agrees_with_cells drawnMatch afterSpock
           [MicroThrow X spock] 1 drawnBoard).
  - exact drawnMatch_consistent.
  - vm_compute. reflexivity.
  - vm_compute. reflexivity.
Defined.

(** X7: [macroWinner] agrees with the boards in every state that a
    sequence of returning calls reaches from a state whose fields agree:
    if the board winners complete a macro line, [macroWinner] is the player
    [determineMacroWinner] finds; and if [macroWinner] is set, either it is
    that player or all nine boards are closed without a line and the player
    won the last round of the galaxy tiebreak. *)
Theorem macroWinner_agrees_with_boards
  (start state : GameState) (script : list Action) :
  consistent start ->
  run start script = Returns state ->
  (forall w, determineMacroWinner (boards state) = Some w ->
             macroWinner state = Some w)
  /\ (forall w, macroWinner state = Some w ->
                determineMacroWinner (boards state) = Some w
                \/ (determineMacroWinner (boards state) = None
                    /\ allClosed (boards state) = true
                    /\ option_map finalLastOutcome (finalRps state)
                       = Some (Some (won w)))).
Proof.
  intros C0 Hrun.
  pose proof (run_consistent script start state C0 Hrun) as R. split.
  - apply (line_is_winner _ R).
  - apply (winner_has_line _ R).
Qed.

Lemma macroWinner_agrees_with_boards_witness :
  (forall w, determineMacroWinner (boards finishedMatch) = Some w ->
             macroWinner finishedMatch = Some w)
  /\ (forall w, macroWinner finishedMatch = Some w ->
                determineMacroWinner (boards finishedMatch) = Some w
                \/ (determineMacroWinner (boards finishedMatch) = None
                    /\ allClosed (boards finishedMatch) = true
                    /\ option_map finalLastOutcome (finalRps finishedMatch)
                       = Some (Some (won w)))).
Proof.
  apply (macroWinner_agrees_with_boards galaxyMatch finishedMatch
           [FinalThrow X rock; FinalThrow O scissors]).
  - exact galaxyMatch_consistent.
  - vm_compute. reflexivity.
Defined.





(** X9: in every state that a sequence of returning calls reaches from a
    state whose fields agree, while the galaxy tiebreak is pending all
    nine boards are closed without a macro line and [finalRps] is present,
    so [submitFinalRpsChoice] accepts every throw; and whenever [finalRps]
    is present its scores are non-negative and [rounds] is their sum. *)
Theorem galaxy_tiebreak_state
  (start state : GameState) (script : list Action) :
  consistent start ->
  run start script = Returns state ->
  (pendingFinalRps state = true ->
   allClosed (boards state) = true
   /\ determineMacroWinner (boards state) = None
   /\ forall player choice,
       final_error (submitFinalRpsChoice state player choice) = None)
  /\ (forall f, finalRps state = Some f ->
                (0 <= atX (score f))%Z
                /\ (0 <= atO (score f))%Z
                /\ rounds f = (atX (score f) + atO (score f))%Z).
Proof.
  intros C0 Hrun.
  pose proof (run_consistent script start state C0 Hrun) as R. split.
  - intros Hf. destruct (galaxy_pending _ R Hf) as [Hd [Hc [_ [_ Hfr]]]].
    repeat split; auto. intros player choice.
    destruct (submitFinalRpsChoice_shape state player choice)
      as [[_ [Habs|Habs]]|[_ [He _]]]; [congruence|congruence|exact He].
  - apply (final_sound _ R).
Qed.

Lemma galaxy_tiebreak_state_witness :
  (pendingFinalRps (rps_state armingThrowResult) = true ->
   allClosed (boards (rps_state armingThrowResult)) = true
   /\ determineMacroWinner (boards (rps_state armingThrowResult)) = None
   /\ forall player choice,
       final_error (submitFinalRpsChoice (rps_state armingThrowResult)
                                         player choice) = None)
  /\ (forall f, finalRps (rps_state armingThrowResult) = Some f ->
                (0 <= atX (score f))%Z
                /\ (0 <= atO (score f))%Z
                /\ rounds f = (atX (score f) + atO (score f))%Z).
Proof.
  apply (galaxy_tiebreak_state lastThrowMatch (rps_state armingThrowResult)
           [MicroThrow X rock; MicroThrow O scissors]).
  - exact lastThrowMatch_consistent.
  - vm_compute. reflexivity.
Defined.

(** ** Calls on a well-formed state *)

(** X11: on a state with nine boards of nine cells and board indices in
    range, [getAllowedBoards], [availableMoves] and [submitRpsChoice]
    return, [chooseAIMove] returns at the [easy] level, and [playMove]
    either returns a rejection with the state it was given or throws the
    [ReferenceError]; and every state a sequence of returning calls
    reaches from it has that shape too. *)
Theorem calls_on_a_well_formed_state (state : GameState) :
  wellFormed state = true ->
  returns (getAllowedBoards state)
  /\ returns (availableMoves state)
  /\ (forall player choice, returns (submitRpsChoice state player choice))
  /\ (forall random, returns (chooseAIMove random state easy))
  /\ (forall boardIndex cellIndex,
         (exists msg,
             playMove state boardIndex cellIndex
             = Returns (mkPlayResult state (Some msg)))
         \/ playMove state boardIndex cellIndex = Throws ReferenceError)
  /\ (forall script next,
         run state script = Returns next -> wellFormed next = true).
Proof.
  intros Hwf. repeat apply conj.
  - now apply getAllowedBoards_returns.
  - now apply availableMoves_returns.
  - intros player choice. now apply submitRpsChoice_returns.
  - intros random. destruct (availableMoves_returns state Hwf) as [moves Ha].
    unfold chooseAIMove. rewrite Ha. cbn [bind].
    destruct moves; eexists; reflexivity.
  - intros boardIndex cellIndex. now apply playMove_cases.
  - intros script next. now apply run_wellFormed.
Qed.

Lemma calls_on_a_well_formed_state_witness :
  returns (getAllowedBoards sentMatch)
  /\ returns (availableMoves sentMatch)
  /\ (forall player choice, returns (submitRpsChoice sentMatch player choice))
  /\ (forall random, returns (chooseAIMove random sentMatch easy))
  /\ (forall boardIndex cellIndex,
         (exists msg,
             playMove sentMatch boardIndex cellIndex
             = Returns (mkPlayResult sentMatch (Some msg)))
         \/ playMove sentMatch boardIndex cellIndex = Throws ReferenceError)
  /\ (forall script next,
         run sentMatch script = Returns next -> wellFormed next = true).
Proof.
  apply (calls_on_a_well_formed_state sentMatch).
  vm_compute. reflexivity.
Defined.

(** ** The order of the moves *)

Lemma StronglySorted_seq k n : StronglySorted lt (seq k n).
Proof.
  revert k; induction n as [|n IH]; intros k; simpl; constructor.
  - apply IH.
  - apply Forall_forall. intros x Hx. apply in_seq in Hx. lia.
Qed.

Lemma map_snd_combine_seq (A : Type) (xs : list A) k :
  map snd (combine xs (seq k (List.length xs))) = seq k (List.length xs).
Proof.
  revert k; induction xs as [|x xs IH]; intros k; simpl; [reflexivity|].
  now rewrite IH.
Qed.

Lemma StronglySorted_filter_snd (A : Type) (f : A * nat -> bool) :
  forall l, StronglySorted lt (map snd l) ->
            StronglySorted lt (map snd (filter f l)).
Proof.
  induction l as [|x l IH]; simpl; intros H; [constructor|].
  inversion H as [|y ys Hs Hall]; subst.
  destruct (f x); simpl; [|now apply IH].
  constructor; [now apply IH|].
  apply Forall_forall. intros j Hj. rewrite Forall_forall in Hall.
  apply Hall. apply in_map_iff in Hj. destruct Hj as [p [<- Hp]].
  apply filter_In in Hp. apply in_map. tauto.
Qed.

Lemma StronglySorted_indexed_filter (A : Type) (f : A * nat -> bool) xs :
  StronglySorted lt (map snd (filter f (indexed xs))).
Proof.
  apply StronglySorted_filter_snd. unfold indexed.
  rewrite map_snd_combine_seq. apply StronglySorted_seq.
Qed.

Lemma StronglySorted_app (A : Type) (R : A -> A -> Prop) l1 l2 :
  StronglySorted R l1 -> StronglySorted R l2 ->
  (forall x y, In x l1 -> In y l2 -> R x y) ->
  StronglySorted R (l1 ++ l2).
Proof.
  induction l1 as [|x l1 IH]; simpl; intros H1 H2 H; [exact H2|].
  inversion H1 as [|y ys Hs Hall]; subst. constructor.
  - apply IH; auto.
  - apply Forall_forall. intros y Hy. apply in_app_or in Hy.
    rewrite Forall_forall in Hall. destruct Hy; auto.
Qed.

Lemma StronglySorted_moves_of_board i cs :
  StronglySorted lt cs -> StronglySorted moveBefore (map (mkMove i) cs).
Proof.
  induction 1 as [|c cs Hs IH Hall]; simpl; constructor; [exact IH|].
  apply Forall_forall. intros m Hm. apply in_map_iff in Hm.
  destruct Hm as [c' [<- Hc']]. rewrite Forall_forall in Hall.
  right. simpl. split; [reflexivity|now apply Hall].
Qed.

Lemma movesIn_sorted bs : forall allowed moves,
  StronglySorted lt allowed ->
  movesIn bs allowed = Returns moves ->
  StronglySorted moveBefore moves.
Proof.
  induction allowed as [|i rest IH]; intros moves Hs H; simpl in H.
  - injection H as <-. constructor.
  - destruct (nth_error bs i) as [b|] eqn:Eb; [|discriminate].
    destruct (movesIn bs rest) as [ms|e] eqn:Er; [|discriminate].
    simpl in H. injection H as <-.
    inversion Hs as [|y ys Hs' Hall]; subst.
    apply StronglySorted_app.
    + apply StronglySorted_moves_of_board. unfold emptyCells.
      apply StronglySorted_indexed_filter.
    + now apply IH.
    + intros x y Hx Hy. apply in_map_iff in Hx. destruct Hx as [c [<- _]].
      apply (movesIn_spec bs rest ms Er y) in Hy. destruct Hy as [Hy _].
      rewrite Forall_forall in Hall. left. simpl. now apply Hall.
Qed.

(** X14: whenever [availableMoves] returns, its list is in strictly
    increasing order, by board index and then by cell index; so no move is
    listed twice. *)
Theorem availableMoves_sorted (state : GameState) (moves : list Move) :
  availableMoves state = Returns moves ->
  StronglySorted moveBefore moves /\ NoDup moves.
Proof.
  intros H.
  assert (Hs : StronglySorted moveBefore moves).
  { unfold availableMoves in H.
    destruct (getAllowedBoards state) as [allowed|e] eqn:Ea; [|discriminate].
    simpl in H. revert H. apply movesIn_sorted.
    unfold getAllowedBoards in Ea.
    destruct (notNull (pendingRpsBoard state) || pendingFinalRps state).
    { injection Ea as <-. constructor. }
    destruct (nextBoard state) as [nb|].
    - destruct (nth_error (boards state) nb) as [t|]; [|discriminate].
      destruct (isNull (winner t)); injection Ea as <-.
      + repeat constructor.
      + apply StronglySorted_indexed_filter.
    - injection Ea as <-. apply StronglySorted_indexed_filter. }
  split; [exact Hs|].
  clear H. induction Hs as [|m ms Hs IH Hall]; constructor; [|exact IH].
  intros Hin. rewrite Forall_forall in Hall. specialize (Hall m Hin).
  unfold moveBefore in Hall. lia.
Qed.

Lemma availableMoves_sorted_witness :
  StronglySorted moveBefore
    [mkMove 4 1; mkMove 4 2; mkMove 4 3; mkMove 4 5; mkMove 4 6; mkMove 4 7;
     mkMove 4 8]
  /\ NoDup
       [mkMove 4 1; mkMove 4 2; mkMove 4 3; mkMove 4 5; mkMove 4 6;
        mkMove 4 7; mkMove 4 8].
Proof.
  apply (availableMoves_sorted sentMatch).
  vm_compute. reflexivity.
Defined.

(** ** Throws of a micro tiebreak *)

Lemma replaceBoard_twice bs i u v :
  replaceBoard (replaceBoard bs i u) i v = replaceBoard bs i v.
Proof.
  apply nth_error_ext. intros j. rewrite !nth_error_replaceBoard.
  destruct (nth_error bs j); simpl; [|reflexivity].
  now destruct (j =? i).
Qed.

(** X15: while the opponent has not thrown in the round, a throw in a
    micro tiebreak is accepted without resolving anything, and the player
    may replace it: throwing again leaves exactly what the second throw
    alone would have left. *)
Theorem throw_can_be_replaced
  (state : GameState) (i : nat) (b : MicroBoardState) (player : Player)
  (c1 c2 : RpsChoice) (r1 : RpsResult) :
  pendingRpsBoard state = Some i ->
  boardAt state i = Some b ->
  get (thrownPicks b player c1) (other player) = None ->
  submitRpsChoice state player c1 = Returns r1 ->
  rps_error r1 = None
  /\ resolvedRps r1 = None
  /\ submitRpsChoice (rps_state r1) player c2
     = submitRpsChoice state player c2.
Proof.
  intros Hp Hb Ho H. unfold boardAt in Hb. unfold thrownPicks in *.
  unfold submitRpsChoice in H |- *. rewrite Hp, Hb in *.
  destruct (rps b) as [[[px po] lo]|] eqn:Er; destruct player;
    simpl in Ho; subst; simpl in H; rewrite !andb_false_r in H;
    injection H as <-; simpl;
    rewrite nth_error_replaceBoard, Hb; simpl; rewrite Nat.eqb_refl;
    simpl; rewrite !andb_false_r, replaceBoard_twice;
    repeat split; reflexivity.
Qed.

Lemma throw_can_be_replaced_witness :
  rps_error
    (mkRpsResult (after drawnMatch [MicroThrow X spock; MicroThrow X rock])
                 None None) = None
  /\ resolvedRps
       (mkRpsResult (after drawnMatch [MicroThrow X spock; MicroThrow X rock])
                    None None) = None
  /\ submitRpsChoice
       (rps_state
          (mkRpsResult
             (after drawnMatch [MicroThrow X spock; MicroThrow X rock])
             None None)) X paper
     = submitRpsChoice afterSpock X paper.
Proof.
  apply (throw_can_be_replaced afterSpock 1 drawnBoard X rock paper
           (mkRpsResult
              (after drawnMatch [MicroThrow X spock; MicroThrow X rock])
              None None));
    vm_compute; reflexivity.
Defined.

(** X16: in a micro tiebreak round that starts with no throw recorded,
    the order in which the two players throw changes nothing but whose
    turn it is afterwards: the boards, the winner fields, the pending
    tiebreaks and the galaxy score come out the same, and the turn comes
    out opposite. *)
Theorem throw_order_moves_only_the_turn
  (state : GameState) (i : nat) (b : MicroBoardState) (cx co : RpsChoice)
  (sXO sOX : GameState) :
  pendingRpsBoard state = Some i ->
  boardAt state i = Some b ->
  (forall r, rps b = Some r -> picks r = noPicks) ->
  run state [MicroThrow X cx; MicroThrow O co] = Returns sXO ->
  run state [MicroThrow O co; MicroThrow X cx] = Returns sOX ->
  boards sXO = boards sOX
  /\ macroWinner sXO = macroWinner sOX
  /\ nextBoard sXO = nextBoard sOX
  /\ pendingRpsBoard sXO = pendingRpsBoard sOX
  /\ pendingFinalRps sXO = pendingFinalRps sOX
  /\ finalRps sXO = finalRps sOX
  /\ currentPlayer sXO = other (currentPlayer sOX).
Proof.
  intros Hp Hb Hn H1 H2. unfold boardAt in Hb.
  unfold run, perform, submitRpsChoice in H1, H2.
  rewrite Hp, Hb in H1, H2.
  assert (Hr : rps b = None
               \/ exists lo, rps b = Some (mkRpsState noPicks lo)).
  { destruct (rps b) as [[p lo]|]; [right|now left].
    exists lo. pose proof (Hn _ eq_refl) as E. simpl in E. now subst p. }
  destruct Hr as [Hr|[lo Hr]]; rewrite Hr in H1, H2;
    simpl in H1, H2; rewrite ?andb_false_r in H1, H2; simpl in H1, H2;
    rewrite nth_error_replaceBoard, Hb in H1, H2; simpl in H1, H2;
    rewrite Nat.eqb_refl in H1, H2; simpl in H1, H2;
    rewrite ?replaceBoard_twice in H1, H2;
    destruct (compareRps cx co); simpl in H1, H2;
    rewrite ?andb_false_r in H1, H2; simpl in H1, H2;
    repeat match type of H1 with
           | context [if ?c then _ else _] => destruct c
           end;
    simpl in H1, H2; injection H1 as <-; injection H2 as <-;
    repeat split; reflexivity.
Qed.

Lemma throw_order_moves_only_the_turn_witness :
  boards (after drawnMatch [MicroThrow X rock; MicroThrow O paper])
  = boards (after drawnMatch [MicroThrow O paper; MicroThrow X rock])
  /\ macroWinner (after drawnMatch [MicroThrow X rock; MicroThrow O paper])
     = macroWinner (after drawnMatch [MicroThrow O paper; MicroThrow X rock])
  /\ nextBoard (after drawnMatch [MicroThrow X rock; MicroThrow O paper])
     = nextBoard (after drawnMatch [MicroThrow O paper; MicroThrow X rock])
  /\ pendingRpsBoard
       (after drawnMatch [MicroThrow X rock; MicroThrow O paper])
     = pendingRpsBoard
         (after drawnMatch [MicroThrow O paper; MicroThrow X rock])
  /\ pendingFinalRps
       (after drawnMatch [MicroThrow X rock; MicroThrow O paper])
     = pendingFinalRps
         (after drawnMatch [MicroThrow O paper; MicroThrow X rock])
  /\ finalRps (after drawnMatch [MicroThrow X rock; MicroThrow O paper])
     = finalRps (after drawnMatch [MicroThrow O paper; MicroThrow X rock])
  /\ currentPlayer
       (after drawnMatch [MicroThrow X rock; MicroThrow O paper])
     = other
         (currentPlayer
            (after drawnMatch [MicroThrow O paper; MicroThrow X rock])).
Proof.
  apply (throw_order_moves_only_the_turn drawnMatch 1 catBoard rock paper);
    try (vm_compute; reflexivity).
  intros r Hr. vm_compute in Hr. injection Hr as <-. reflexivity.
Defined.

(** X17: when [submitRpsChoice] reports a resolved round, the report is
    about the board that was pending, which is pending no more; the
    reported winner's throw is one that [RPS_RULES] lets beat the other
    throw, the verb is the one [RPS_VERBS] has for the pair, the picks
    include the throw just made, and the board now carries the winner, the
    picks and the outcome. *)
Theorem resolvedRps_describes_the_round
  (state : GameState) (player : Player) (choice : RpsChoice)
  (r : RpsResult) (d : ResolvedRps) :
  submitRpsChoice state player choice = Returns r ->
  resolvedRps r = Some d ->
  rps_error r = None
  /\ pendingRpsBoard state = Some (resolved_boardIndex d)
  /\ pendingRpsBoard (rps_state r) = None
  /\ get (resolved_picks d) player = choice
  /\ In (get (resolved_picks d) (other (resolved_winner d)))
        (RPS_RULES (get (resolved_picks d) (resolved_winner d)))
  /\ RPS_VERBS (get (resolved_picks d) (resolved_winner d))
               (get (resolved_picks d) (other (resolved_winner d)))
     = Some (resolved_verb d)
  /\ exists u,
       boardAt (rps_state r) (resolved_boardIndex d) = Some u
       /\ winner u = Some (by_ (resolved_winner d))
       /\ rps u
          = Some (mkRpsState
                    (mkPlayerMap (Some (atX (resolved_picks d)))
                                 (Some (atO (resolved_picks d))))
                    (Some (won (resolved_winner d)))).
Proof.
  intros H Hd. unfold submitRpsChoice in H.
  destruct (pendingRpsBoard state) as [i|] eqn:Ep;
    [|injection H as <-; discriminate Hd].
  destruct (nth_error (boards state) i) as [b|] eqn:Eb; [|discriminate].
  cbv zeta in H.
  assert (Hat : forall u,
    nth_error (replaceBoard (boards state) i u) i = Some u).
  { intros u. rewrite nth_error_replaceBoard, Eb. simpl.
    now rewrite Nat.eqb_refl. }
  destruct (match rps b with
            | Some r0 => r0
            | None => mkRpsState noPicks None
            end) as [[px po] lo].
  destruct player; simpl in H.
  - destruct po as [o|];
      [|rewrite ?andb_false_r in H; injection H as <-; discriminate Hd].
    destruct choice, o; simpl in H; rewrite ?andb_false_r in H;
      try (injection H as <-; discriminate Hd);
      (destruct (isNull _ && allClosed _) in H); injection H as <-;
      simpl in Hd; injection Hd as <-; unfold boardAt; simpl;
      rewrite Hat; repeat split; auto; eexists; repeat split.
  - destruct px as [x|];
      [|rewrite ?andb_false_r in H; injection H as <-; discriminate Hd].
    destruct choice, x; simpl in H; rewrite ?andb_false_r in H;
      try (injection H as <-; discriminate Hd);
      (destruct (isNull _ && allClosed _) in H); injection H as <-;
      simpl in Hd; injection Hd as <-; unfold boardAt; simpl;
      rewrite Hat; repeat split; auto; eexists; repeat split.
Qed.

Lemma resolvedRps_describes_the_round_witness :
  rps_error decidedThrowResult = None
  /\ pendingRpsBoard afterSpock = Some (resolved_boardIndex decidedReport)
  /\ pendingRpsBoard (rps_state decidedThrowResult) = None
  /\ get (resolved_picks decidedReport) O = rock
  /\ In (get (resolved_picks decidedReport)
             (other (resolved_winner decidedReport)))
        (RPS_RULES (get (resolved_picks decidedReport)
                        (resolved_winner decidedReport)))
  /\ RPS_VERBS (get (resolved_picks decidedReport)
                    (resolved_winner decidedReport))
               (get (resolved_picks decidedReport)
                    (other (resolved_winner decidedReport)))
     = Some (resolved_verb decidedReport)
  /\ exists u,
       boardAt (rps_state decidedThrowResult)
               (resolved_boardIndex decidedReport) = Some u
       /\ winner u = Some (by_ (resolved_winner decidedReport))
       /\ rps u
          = Some (mkRpsState
                    (mkPlayerMap (Some (atX (resolved_picks decidedReport)))
                                 (Some (atO (resolved_picks decidedReport))))
                    (Some (won (resolved_winner decidedReport)))).
Proof.
  apply (resolvedRps_describes_the_round afterSpock O rock
           decidedThrowResult decidedReport).
  - vm_compute. reflexivity.
  - reflexivity.
Defined.

(** ** The end of a match *)

Lemma allClosed_true bs i b :
  allClosed bs = true -> nth_error bs i = Some b -> winner b <> None.
Proof.
  unfold allClosed. intros H Hb. rewrite forallb_forall in H.
  specialize (H b (nth_error_In _ _ Hb)). now destruct (winner b).
Qed.

Lemma no_legalBoard_when_closed state i :
  allClosed (boards state) = true -> ~ legalBoard state i.
Proof.
  intros Hc [_ [_ [[b [Hb Hw]] _]]].
  exact (allClosed_true _ _ _ Hc Hb Hw).
Qed.

(** X18: a well-formed state whose fields agree, in which all nine
    boards are closed and no tiebreak is pending, is the end of the match:
    it has a macro winner, [playMove] and both throw functions reject every
    call and hand the state back, [availableMoves] is empty and
    [chooseAIMove] gives [null]. *)
Theorem finished_match_is_final (state : GameState) :
  wellFormed state = true ->
  consistent state ->
  allClosed (boards state) = true ->
  pendingRpsBoard state = None ->
  pendingFinalRps state = false ->
  macroWinner state <> None
  /\ (forall boardIndex cellIndex,
        exists msg,
          playMove state boardIndex cellIndex
          = Returns (mkPlayResult state (Some msg)))
  /\ (forall player choice,
        submitRpsChoice state player choice
        = Returns (mkRpsResult state (Some "No RPS pending.") None))
  /\ (forall player choice,
        submitFinalRpsChoice state player choice
        = mkFinalResult state (Some "No final RPSLS pending.") None)
  /\ availableMoves state = Returns []
  /\ (forall random level, chooseAIMove random state level = Returns None).
Proof.
  intros Hwf C Hc Hp Hf.
  assert (Hm : availableMoves state = Returns []).
  { destruct (availableMoves_returns state Hwf) as [moves Hm].
    destruct moves as [|m rest]; [exact Hm|]. exfalso.
    destruct (proj1 (availableMoves_In state _ m Hm) (or_introl eq_refl))
      as [Hl _].
    exact (no_legalBoard_when_closed _ _ Hc Hl). }
  repeat split.
  - intros Hw. pose proof (never_stalls _ C Hc Hp Hw). congruence.
  - intros boardIndex cellIndex.
    destruct (playMove_cases state boardIndex cellIndex Hwf) as [Hr|Ht];
      [exact Hr|].
    exfalso. apply playMove_ReferenceError_inv in Ht. destruct Ht as [Hl _].
    exact (no_legalBoard_when_closed _ _ Hc Hl).
  - intros player choice. unfold submitRpsChoice. now rewrite Hp.
  - intros player choice. unfold submitFinalRpsChoice. now rewrite Hf.
  - exact Hm.
  - intros random level. unfold chooseAIMove. now rewrite Hm.
Qed.

Lemma finished_match_is_final_witness :
  macroWinner finishedMatch <> None
  /\ (forall boardIndex cellIndex,
        exists msg,
          playMove finishedMatch boardIndex cellIndex
          = Returns (mkPlayResult finishedMatch (Some msg)))
  /\ (forall player choice,
        submitRpsChoice finishedMatch player choice
        = Returns (mkRpsResult finishedMatch (Some "No RPS pending.") None))
  /\ (forall player choice,
        submitFinalRpsChoice finishedMatch player choice
        = mkFinalResult finishedMatch (Some "No final RPSLS pending.") None)
  /\ availableMoves finishedMatch = Returns []
  /\ (forall random level, chooseAIMove random finishedMatch level
                           = Returns None).
Proof.
  apply (finished_match_is_final finishedMatch).
  - vm_compute. reflexivity.
  - apply (run_consistent [FinalThrow X rock; FinalThrow O scissors]
             galaxyMatch finishedMatch galaxyMatch_consistent).
    vm_compute. reflexivity.
  - vm_compute. reflexivity.
  - vm_compute. reflexivity.
  - vm_compute. reflexivity.
Defined.

(** ** Random throws *)


(** ** The heuristic *)

Lemma scoreLine_bound cells player line :
  (forall q, ~ lineHeldBy cells q line) ->
  (-12 <= scoreLine cells player line <= 15)%Z.
Proof.
  destruct line as [[a b] c]. unfold lineHeldBy, scoreLine, at_. intros H.
  destruct (nth_error cells a) as [[[|]|]|],
           (nth_error cells b) as [[[|]|]|],
           (nth_error cells c) as [[[|]|]|], player;
    simpl; try lia; exfalso;
    ((apply (H X); now repeat split) || (apply (H O); now repeat split)).
Qed.

Lemma fold_left_sum_bound (A : Type) (f : A -> Z) (lo hi : Z) xs :
  (forall x, In x xs -> (lo <= f x <= hi)%Z) ->
  forall acc,
    (acc + Z.of_nat (List.length xs) * lo
     <= fold_left (fun s x => s + f x) xs acc
     <= acc + Z.of_nat (List.length xs) * hi)%Z.
Proof.
  induction xs as [|x xs IH]; intros H acc.
  - simpl. lia.
  - cbn [fold_left List.length].
    assert (Hx : (lo <= f x <= hi)%Z) by (apply H; now left).
    specialize (IH (fun y Hy => H y (or_intror Hy)) (acc + f x)%Z).
    lia.
Qed.

Lemma scoreLines_bound cells player :
  detectWinner cells = None ->
  (-96 <= scoreLines cells player <= 120)%Z.
Proof.
  intros H. unfold detectWinner in H.
  pose proof (proj1 (detectWinner_from_None WIN_LINES cells) H) as Hn.
  pose proof (fold_left_sum_bound _ (scoreLine cells player) (-12) 15 WIN_LINES)
    as Hb.
  unfold scoreLines.
  specialize (Hb (fun line Hin =>
                    scoreLine_bound cells player line
                      (fun q => Hn line q Hin)) 0%Z).
  simpl List.length in Hb. lia.
Qed.

Lemma fold_left_Q_bound (A : Type) (step : Q -> A -> Q) (lo hi : Q) xs :
  (forall s x, In x xs -> s + lo <= step s x /\ step s x <= s + hi)%Q ->
  forall acc,
    (acc + inject_Z (Z.of_nat (List.length xs)) * lo
     <= fold_left step xs acc
     /\ fold_left step xs acc
        <= acc + inject_Z (Z.of_nat (List.length xs)) * hi)%Q.
Proof.
  induction xs as [|x xs IH]; intros H acc.
  - cbn [fold_left List.length Z.of_nat]. change (inject_Z 0) with 0%Q.
    split; lra.
  - cbn [fold_left List.length].
    destruct (H acc x (or_introl eq_refl)) as [Hl Hh].
    destruct (IH (fun s y Hy => H s y (or_intror Hy)) (step acc x))
      as [Il Ih].
    rewrite Nat2Z.inj_succ. unfold Z.succ. rewrite inject_Z_plus.
    change (inject_Z 1) with 1%Q. split; lra.
Qed.

(** X20: in a state with nine boards whose fields agree and which has no
    macro winner, the heuristic value [evaluateState] gives the position
    lies between -3216 and 4020, for either player. *)
Theorem evaluateState_bounded (state : GameState) (player : Player) :
  consistent state ->
  List.length (boards state) = 9 ->
  macroWinner state = None ->
  (- (3216) <= evaluateState state player)%Q
  /\ (evaluateState state player <= 4020)%Q.
Proof.
  intros C Hlen Hw.
  unfold evaluateState. rewrite Hw. cbv zeta.
  assert (Hmacro : (-96 <= scoreLines (map macroCell (boards state)) player
                    <= 120)%Z).
  { apply scoreLines_bound.
    destruct (determineMacroWinner (boards state)) as [w|] eqn:Ed;
      [|exact Ed].
    pose proof (line_is_winner _ C w Ed). congruence. }
  destruct Hmacro as [Hm1 Hm2].
  rewrite Zle_Qle in Hm1, Hm2.
  match goal with
  | |- context [fold_left ?step (indexed (boards state)) 0%Q] =>
      pose proof (fold_left_Q_bound _ step (- (144))%Q 180%Q
                    (indexed (boards state))) as Hb
  end.
  rewrite length_indexed, Hlen in Hb.
  destruct (Hb) with (acc := 0%Q) as [Hl Hh].
  { intros s [b idx] Hin. apply In_indexed in Hin.
    pose proof (boards_sound _ C idx b Hin) as S. unfold boardSound in S.
    destruct (winner b) as [[w|]|] eqn:Ewb.
    - destruct (Player_eqb w player); split; lra.
    - split; lra.
    - destruct S as [Hd _].
      destruct (scoreLines_bound (cells b) player Hd) as [H1 H2].
      rewrite Zle_Qle in H1, H2.
      change (inject_Z (-96)) with (- (96))%Q in H1.
      change (inject_Z 120) with 120%Q in H2.
      destruct (nextBoard state) as [nb|];
        [destruct (nb =? idx)|]; split; lra. }
  change (inject_Z (Z.of_nat 9)) with 9%Q in Hl, Hh.
  change (inject_Z (-96)) with (- (96))%Q in Hm1.
  change (inject_Z 120) with 120%Q in Hm2.
  split; lra.
Qed.

Lemma evaluateState_bounded_witness :
  (- (3216) <= evaluateState drawnMatch X)%Q
  /\ (evaluateState drawnMatch X <= 4020)%Q.
Proof.
  apply (evaluateState_bounded drawnMatch X).
  - exact drawnMatch_consistent.
  - reflexivity.
  - reflexivity.
Defined.

(** ** The search below the root *)

(** X21: [minimax] returns without trying a move when the match is won
    (10000 for the player, -10000 against), at depth 0, while a micro
    tiebreak is pending or when there is no move, in which cases it gives
    [evaluateState]; otherwise it tries the first move with [playMove] and
    the call throws. *)
Theorem minimax_throws_where_it_searches
  (state : GameState) (maximizing : bool) (player : Player) :
  (forall depth w,
      macroWinner state = Some w ->
      minimax depth state maximizing player
      = Returns (Finite (if Player_eqb w player then 10000 else (-10000))%Q))
  /\ (macroWinner state = None ->
      minimax 0 state maximizing player
      = Returns (Finite (evaluateState state player)))
  /\ (forall depth,
      macroWinner state = None ->
      pendingRpsBoard state <> None ->
      minimax depth state maximizing player
      = Returns (Finite (evaluateState state player)))
  /\ (forall depth,
      macroWinner state = None ->
      availableMoves state = Returns [] ->
      minimax depth state maximizing player
      = Returns (Finite (evaluateState state player)))
  /\ (forall depth m rest,
      macroWinner state = None ->
      availableMoves state = Returns (m :: rest) ->
      minimax (S depth) state maximizing player = Throws ReferenceError).
Proof.
  repeat apply conj.
  - intros depth w Hw. destruct depth; simpl; now rewrite Hw.
  - intros Hw. simpl. now rewrite Hw.
  - intros depth Hw Hp. apply notNull_true in Hp.
    destruct depth; simpl; rewrite Hw; [reflexivity|]. now rewrite Hp.
  - intros depth Hw Ha. destruct depth; simpl; rewrite Hw; [reflexivity|].
    rewrite Ha. simpl. now destruct (notNull (pendingRpsBoard state)).
  - intros depth m rest Hw Ha.
    pose proof (availableMoves_nonempty_not_pending _ _ _ Ha) as Hp.
    destruct (proj1 (availableMoves_In state _ m Ha) (or_introl eq_refl))
      as [Hl He].
    cbn [minimax]. rewrite Hw, Hp, Ha. cbn [bind].
    destruct maximizing; rewrite for_of_cons; unfold cloneState;
      now rewrite (playMove_legal_throws _ _ _ Hl He).
Qed.

Lemma minimax_throws_where_it_searches_witness :
  minimax 2 macroWonMatch false X = Returns (Finite 10000%Q)
  /\ minimax 0 sentMatch true O
     = Returns (Finite (evaluateState sentMatch O))
  /\ minimax 2 drawnMatch true X
     = Returns (Finite (evaluateState drawnMatch X))
  /\ minimax 2 galaxyMatch true X
     = Returns (Finite (evaluateState galaxyMatch X))
  /\ minimax 2 sentMatch true O = Throws ReferenceError.
Proof.
  repeat apply conj.
  - destruct (minimax_throws_where_it_searches macroWonMatch false X)
      as (H1 & _).
    apply (H1 2 X). reflexivity.
  - destruct (minimax_throws_where_it_searches sentMatch true O)
      as (_ & H2 & _).
    apply H2. reflexivity.
  - destruct (minimax_throws_where_it_searches drawnMatch true X)
      as (_ & _ & H3 & _).
    apply (H3 2); [reflexivity|discriminate].
  - destruct (minimax_throws_where_it_searches galaxyMatch true X)
      as (_ & _ & _ & H4 & _).
    apply (H4 2); [reflexivity|vm_compute; reflexivity].
  - destruct (minimax_throws_where_it_searches sentMatch true O)
      as (_ & _ & _ & _ & H5).
    apply (H5 1 (mkMove 4 1) (map (mkMove 4) [2; 3; 5; 6; 7; 8]));
      [reflexivity|vm_compute; reflexivity].
Defined.

(** ** Won boards *)

Lemma perform_keeps_winner state a next j b p :
  consistent state ->
  perform state a = Returns next ->
  boardAt state j = Some b ->
  winner b = Some (by_ p) ->
  exists b', boardAt next j = Some b' /\ winner b' = Some (by_ p).
Proof.
  intros C H Hj Hw. unfold boardAt in *.
  destruct a as [bi ci|pl ch|pl ch].
  - apply perform_Play_unchanged in H. subst next. now exists b.
  - simpl in H.
    destruct (submitRpsChoice state pl ch) as [r|e] eqn:E; [|discriminate].
    simpl in H. injection H as <-.
    apply submitRpsChoice_inv in E.
    destruct E as [_|i bi u Hp Hb Hc Hwu|i bi u w d armed Hp Hb Hc Hwu _];
      simpl.
    + now exists b.
    + rewrite nth_error_replaceBoard, Hj. simpl.
      destruct (j =? i) eqn:Ej; [|now exists b].
      apply Nat.eqb_eq in Ej. subst j. exists u. split; [reflexivity|].
      congruence.
    + rewrite nth_error_replaceBoard, Hj. simpl.
      destruct (j =? i) eqn:Ej; [|now exists b].
      apply Nat.eqb_eq in Ej. subst j.
      pose proof (proj2 (cat_is_pending _ C i b Hj) Hp). congruence.
  - simpl in H. injection H as <-. rewrite submitFinalRpsChoice_boards.
    now exists b.
Qed.

(** X22: in a match, a board that a player has won stays that player's:
    from a state whose fields agree, no sequence of returning calls
    changes the [winner] of a board once it names a player. *)
Theorem won_boards_stay_won
  (state next : GameState) (script : list Action) (j : nat)
  (b : MicroBoardState) (p : Player) :
  consistent state ->
  run state script = Returns next ->
  boardAt state j = Some b ->
  winner b = Some (by_ p) ->
  exists b', boardAt next j = Some b' /\ winner b' = Some (by_ p).
Proof.
  intros R.
  revert state b R. induction script as [|a rest IH]; intros state b C H Hj Hw.
  - injection H as <-. now exists b.
  - simpl in H. destruct (perform state a) as [mid|e] eqn:E; [|discriminate].
    simpl in H.
    destruct (perform_keeps_winner _ _ _ _ _ _ C E Hj Hw) as [b1 [Hj1 Hw1]].
    apply (IH mid b1); auto. eapply perform_consistent; eassumption.
Qed.

Lemma won_boards_stay_won_witness :
  exists b',
    boardAt (after drawnMatch [MicroThrow X spock; MicroThrow O rock]) 2
    = Some b'
    /\ winner b' = Some (by_ X).
Proof.
  apply (won_boards_stay_won drawnMatch
           (after drawnMatch [MicroThrow X spock; MicroThrow O rock])
           [MicroThrow X spock; MicroThrow O rock] 2 wonByX X).
  - exact drawnMatch_consistent.
  - vm_compute. reflexivity.
  - reflexivity.
  - reflexivity.
Defined.

(** ** Reading a saved match *)

(** X23: whatever the stored text and however it parses, [parseState]
    returns an object that has every field of [GameState]. *)
Theorem parseState_has_every_field
  (JSON_parse : string -> option json) (raw : option string) :
  exists props,
    parseState JSON_parse raw = JObject props
    /\ forall key,
        In key ["boards"; "macroWinner"; "currentPlayer"; "nextBoard";
                "pendingRpsBoard"; "pendingFinalRps"; "finalRps"; "names";
                "bots"] ->
        property key props <> None.
Proof.
  assert (Hinit : forall key,
    In key ["boards"; "macroWinner"; "currentPlayer"; "nextBoard";
            "pendingRpsBoard"; "pendingFinalRps"; "finalRps"; "names";
            "bots"] ->
    property key (stateProps createInitialState) <> None).
  { intros key Hin. simpl in Hin.
    repeat (destruct Hin as [<-|Hin]; [vm_compute; discriminate|]).
    destruct Hin. }
  assert (Hdef : exists props,
    toJSON createInitialState = JObject props
    /\ forall key,
        In key ["boards"; "macroWinner"; "currentPlayer"; "nextBoard";
                "pendingRpsBoard"; "pendingFinalRps"; "finalRps"; "names";
                "bots"] ->
        property key props <> None).
  { exists (stateProps createInitialState). split; [reflexivity|exact Hinit]. }
  unfold parseState. destruct raw as [text|]; [|exact Hdef].
  destruct (String.eqb text ""); [exact Hdef|].
  destruct (JSON_parse text) as [[| | | | |props]|]; try exact Hdef.
  destruct (property "boards" props) as [bs|]; [|exact Hdef].
  destruct (falsy bs || lengthIsNot9 bs); [exact Hdef|].
  eexists. split; [reflexivity|]. intros key Hin.
  rewrite property_spread.
  destruct (property key (rev props)); [discriminate|]. now apply Hinit.
Qed.

(** ** Throws of the galaxy tiebreak *)

(** X24: in a galaxy tiebreak round that starts with no throw recorded,
    the order in which the two players throw changes nothing but whose
    turn it is afterwards: the score, the rounds, the macro winner and the
    pending flag come out the same, and the turn comes out opposite. *)
Theorem final_throw_order_moves_only_the_turn
  (state : GameState) (f : FinalRpsState) (cx co : RpsChoice)
  (sXO sOX : GameState) :
  pendingFinalRps state = true ->
  finalRps state = Some f ->
  finalPicks f = noPicks ->
  run state [FinalThrow X cx; FinalThrow O co] = Returns sXO ->
  run state [FinalThrow O co; FinalThrow X cx] = Returns sOX ->
  boards sXO = boards sOX
  /\ macroWinner sXO = macroWinner sOX
  /\ nextBoard sXO = nextBoard sOX
  /\ pendingRpsBoard sXO = pendingRpsBoard sOX
  /\ pendingFinalRps sXO = pendingFinalRps sOX
  /\ finalRps sXO = finalRps sOX
  /\ currentPlayer sXO = other (currentPlayer sOX).
Proof.
  intros Hp Hf Hn H1 H2.
  unfold run, perform, submitFinalRpsChoice in H1, H2.
  destruct f as [pk lo sc rd]. simpl in Hn. subst pk.
  rewrite Hp, Hf in H1, H2. simpl in H1, H2.
  destruct (compareRps cx co); simpl in H1, H2;
    repeat match type of H1 with
           | context [if ?c then _ else _] => destruct c
           end;
    simpl in H1, H2; injection H1 as <-; injection H2 as <-;
    repeat split; reflexivity.
Qed.

Lemma final_throw_order_moves_only_the_turn_witness :
  boards (after galaxyMatch [FinalThrow X rock; FinalThrow O paper])
  = boards (after galaxyMatch [FinalThrow O paper; FinalThrow X rock])
  /\ macroWinner (after galaxyMatch [FinalThrow X rock; FinalThrow O paper])
     = macroWinner (after galaxyMatch [FinalThrow O paper; FinalThrow X rock])
  /\ nextBoard (after galaxyMatch [FinalThrow X rock; FinalThrow O paper])
     = nextBoard (after galaxyMatch [FinalThrow O paper; FinalThrow X rock])
  /\ pendingRpsBoard
       (after galaxyMatch [FinalThrow X rock; FinalThrow O paper])
     = pendingRpsBoard
         (after galaxyMatch [FinalThrow O paper; FinalThrow X rock])
  /\ pendingFinalRps
       (after galaxyMatch [FinalThrow X rock; FinalThrow O paper])
     = pendingFinalRps
         (after galaxyMatch [FinalThrow O paper; FinalThrow X rock])
  /\ finalRps (after galaxyMatch [FinalThrow X rock; FinalThrow O paper])
     = finalRps (after galaxyMatch [FinalThrow O paper; FinalThrow X rock])
  /\ currentPlayer
       (after galaxyMatch [FinalThrow X rock; FinalThrow O paper])
     = other
         (currentPlayer
            (after galaxyMatch [FinalThrow O paper; FinalThrow X rock])).
Proof.
  apply (final_throw_order_moves_only_the_turn galaxyMatch freshFinalRps
           rock paper);
    vm_compute; reflexivity.
Defined.

(** ** What a match can reach *)

Lemma perform_createInitialState a next :
  perform createInitialState a = Returns next -> next = createInitialState.
Proof.
  destruct a as [bi ci|pl ch|pl ch]; intros H.
  - now apply perform_Play_unchanged in H.
  - simpl in H. now injection H as <-.
  - simpl in H. now injection H as <-.
Qed.

(** X25: no match gets past its first move: the only state that a
    sequence of returning calls of [playMove], [submitRpsChoice] and
    [submitFinalRpsChoice] reaches from [createInitialState()] is
    [createInitialState()] itself, and every move [availableMoves] lists
    for it (there are 81) makes [playMove] throw. *)
Theorem only_the_initial_state_is_reachable :
  (forall state, reachable state -> state = createInitialState)
  /\ (exists moves,
         availableMoves createInitialState = Returns moves
         /\ List.length moves = 81
         /\ forall m, In m moves ->
                      playMove createInitialState (board m) (cell m)
                      = Throws ReferenceError).
Proof.
  split.
  - intros state [script H].
    assert (G : forall start,
      start = createInitialState ->
      run start script = Returns state -> state = createInitialState).
    { clear H. induction script as [|a rest IH]; intros start -> H.
      - simpl in H. now injection H as <-.
      - simpl in H.
        destruct (perform createInitialState a) as [next|e] eqn:E;
          [|discriminate].
        simpl in H. apply perform_createInitialState in E.
        now apply (IH next). }
    now apply (G createInitialState).
  - destruct (availableMoves createInitialState) as [moves|e] eqn:Ha;
      [|vm_compute in Ha; discriminate Ha].
    exists moves. split; [reflexivity|]. split.
    + vm_compute in Ha. injection Ha as <-. reflexivity.
    + intros m Hin.
      destruct (proj1 (availableMoves_In _ _ m Ha) Hin) as [Hl He].
      now apply playMove_legal_throws.
Qed.
